(** * Character-level bigram model ([src/bigram_model.py])

    A shallow embedding of the five functions of [bigram_model.py] and the
    properties the specification states about them.

    Modelling choices, fixed once for the whole development:

    - A tensor element is a [tval]: a real number, one of the two IEEE
      infinities, or NaN.  Finite arithmetic is exact (rounding and the sign
      of zero are not modelled); the special values follow IEEE 754, which
      is what [torch] implements: [0/0 = nan], [x/0 = inf] for [x > 0],
      [log 0 = -inf], [log x = nan] for [x < 0].
    - The probability builder comes twice: in exact arithmetic, and in the
      dtype of the count tensor, where an integer total wraps around and a
      floating total overflows to infinity; the two agree wherever the
      dtype computes the totals exactly.
    - A Python call either returns a value or raises: [result A].
    - A [Dict[str, int]] is a [gmap string Z], a [Dict[int, str]] a
      [gmap Z string]; a missing key raises [KeyError].
    - A 2-D tensor is the list of its rows; indexing with a Python [int]
      wraps negative indices once and raises [IndexError] out of range.
    - A Python [str] is a [string] whose characters are the code points below
      256; [str.lower] is the Unicode lower-casing restricted to that range.
    - [torch.multinomial] draws from the global generator of [torch]; the
      generator is threaded explicitly as a state of an arbitrary type [G]. *)

From Stdlib Require Import Reals Lra ZArith Ascii String.
From stdpp Require Import base option list strings gmap.

Open Scope R_scope.

(** ** Tensor elements *)

Inductive tval : Type :=
  | Fin (r : R)
  | PInf
  | NInf
  | NaN.

Definition tadd (x y : tval) : tval :=
  match x, y with
  | NaN, _ | _, NaN => NaN
  | PInf, NInf | NInf, PInf => NaN
  | PInf, _ | _, PInf => PInf
  | NInf, _ | _, NInf => NInf
  | Fin a, Fin b => Fin (a + b)
  end.

Definition tneg (x : tval) : tval :=
  match x with
  | Fin a => Fin (- a)
  | PInf => NInf
  | NInf => PInf
  | NaN => NaN
  end.

(** The sign of a real, by the trichotomy of the order. *)
Inductive sign : Type := Neg | Zero | Pos.

Definition Rsign (r : R) : sign :=
  match total_order_T r 0 with
  | inleft (left _) => Neg
  | inleft (right _) => Zero
  | inright _ => Pos
  end.

Definition tdiv (x y : tval) : tval :=
  match x, y with
  | NaN, _ | _, NaN => NaN
  | Fin a, Fin b =>
      match Rsign b with
      | Zero => match Rsign a with Neg => NInf | Zero => NaN | Pos => PInf end
      | _ => Fin (a / b)
      end
  | Fin _, _ => Fin 0
  | PInf, Fin b => match Rsign b with Neg => NInf | _ => PInf end
  | NInf, Fin b => match Rsign b with Neg => PInf | _ => NInf end
  | _, _ => NaN
  end.

(** [torch.log] *)
Definition tlog (x : tval) : tval :=
  match x with
  | Fin a => match Rsign a with Neg => NaN | Zero => NInf | Pos => Fin (ln a) end
  | PInf => PInf
  | NInf => NaN
  | NaN => NaN
  end.

(** [tensor.sum()] of a 1-D tensor. *)
Definition tsum (row : list tval) : tval := foldr tadd (Fin 0) row.

(** The IEEE comparison [x <= y]: false as soon as one side is NaN. *)
Definition tle (x y : tval) : Prop :=
  match x, y with
  | NaN, _ | _, NaN => False
  | NInf, _ | _, PInf => True
  | Fin a, Fin b => a <= b
  | _, _ => False
  end.

Definition is_nan (x : tval) : Prop := x = NaN.

(** ** Exceptions *)

(** The reason codes of the specification's [DomainError]. *)
Inductive reason : Type :=
  | UnknownSymbol
  | EmptyCorpus
  | NoObservedContinuations
  | MalformedDistribution
  | VocabularyMismatch.

(** What a call can raise.  The first five are raised by Python and torch;
    [DomainError] is the error kind the specification names, and no
    function of the source raises it. *)
Inductive exn : Type :=
  | KeyError (key : string)
  | KeyErrorInt (key : Z)
  | IndexError
  | ZeroDivisionError
  | RuntimeError
  | DomainError (why : reason).

Inductive result (A : Type) : Type :=
  | Ok (a : A)
  | Raise (e : exn).
Arguments Ok {A} a.
Arguments Raise {A} e.

#[global] Instance result_ret : MRet result := @Ok.
#[global] Instance result_bind : MBind result := λ A B f m,
  match m with
  | Ok a => f a
  | Raise e => Raise e
  end.
#[global] Instance result_fmap : FMap result := λ A B f m,
  match m with
  | Ok a => Ok (f a)
  | Raise e => Raise e
  end.

Definition raises {A} (m : result A) : Prop := ∃ e, m = Raise e.
Definition is_DomainError (e : exn) : Prop := ∃ why, e = DomainError why.

(** ** Dictionaries, tensors and strings *)

(** [d[key]] for a [Dict[str, int]]. *)
Definition char_to_index_get (d : gmap string Z) (key : string) : result Z :=
  match d !! key with
  | Some i => Ok i
  | None => Raise (KeyError key)
  end.

(** [d[key]] for a [Dict[int, str]]. *)
Definition idx_to_char_get (d : gmap Z string) (key : Z) : result string :=
  match d !! key with
  | Some c => Ok c
  | None => Raise (KeyErrorInt key)
  end.

(** [t[i]] along the first dimension, [i] a Python [int]. *)
Definition tensor_get {A} (t : list A) (i : Z) : result A :=
  let n := Z.of_nat (length t) in
  let i' := if (i <? 0)%Z then (i + n)%Z else i in
  if ((0 <=? i') && (i' <? n))%Z
  then match t !! Z.to_nat i' with
       | Some x => Ok x
       | None => Raise IndexError
       end
  else Raise IndexError.

(** [t[j, k]] *)
Definition tensor_get2 (t : list (list tval)) (j k : Z) : result tval :=
  row ← tensor_get t j; tensor_get row k.

Definition in_range {A} (t : list A) (i : Z) : Prop :=
  (- Z.of_nat (length t) <= i < Z.of_nat (length t))%Z.

(** [str.lower] on one character. *)
Definition lower_char (c : ascii) : ascii :=
  let n := nat_of_ascii c in
  if ((65 <=? n) && (n <=? 90) || (192 <=? n) && (n <=? 214)
      || (216 <=? n) && (n <=? 222))%nat
  then ascii_of_nat (n + 32)
  else c.

Fixpoint lower (s : string) : string :=
  match s with
  | EmptyString => EmptyString
  | String c s' => String (lower_char c) (lower s')
  end.

(** The one-character string [s[i]] is made of. *)
Definition char (c : ascii) : string := String c EmptyString.

Definition default_start_token : string := "<S>".
Definition default_end_token : string := "<E>".

(** ** [bigrams_count_to_probabilities]

    The three lines of the function in exact arithmetic: this is what the
    code computes as long as no entry and no row total leaves the range of
    the dtype of the tensor ([bigrams_count_to_probabilities_dtype] below has
    the wrap-around and the overflow). *)

(** [bigram_counts + smooth_factor] *)
Definition smoothed_bigram_counts (bigram_counts : list (list tval))
    (smooth_factor : Z) : list (list tval) :=
  map (map (λ c, tadd c (Fin (IZR smooth_factor)))) bigram_counts.

(** [smoothed_bigram_counts.sum(dim=1).unsqueeze(1)]: one total per row. *)
Definition denominator (smoothed : list (list tval)) : list tval :=
  map tsum smoothed.

(** [smoothed_bigram_counts / denominator], the column of totals broadcast
    along each row. *)
Definition bigrams_count_to_probabilities (bigram_counts : list (list tval))
    (smooth_factor : Z) : list (list tval) :=
  let smoothed := smoothed_bigram_counts bigram_counts smooth_factor in
  zip_with (λ row d, map (λ x, tdiv x d) row) smoothed (denominator smoothed).

(** ** [calculate_log_likelihood] *)

(** The loop [for i in range(1, len(processed_word))]: [prev] is
    [processed_word[i - 1]] and the head of [rest] is [processed_word[i]]. *)
Fixpoint bigram_loop (bigram_probabilities : list (list tval))
    (char_to_index : gmap string Z) (log_likelihood : tval)
    (prev : ascii) (rest : list ascii) : result tval :=
  match rest with
  | [] => Ok log_likelihood
  | c :: rest' =>
      j ← char_to_index_get char_to_index (char prev);
      k ← char_to_index_get char_to_index (char c);
      p ← tensor_get2 bigram_probabilities j k;
      bigram_loop bigram_probabilities char_to_index
        (tadd log_likelihood (tlog p)) c rest'
  end.

Definition processed_word (word start_token end_token : string) : string :=
  start_token +:+ lower word +:+ end_token.

Definition calculate_log_likelihood (word : string)
    (bigram_probabilities : list (list tval)) (char_to_index : gmap string Z)
    (start_token end_token : string) : result tval :=
  match list_ascii_of_string (processed_word word start_token end_token) with
  | [] => Ok (Fin 0)
  | c :: rest => bigram_loop bigram_probabilities char_to_index (Fin 0) c rest
  end.

(** ** [calculate_neg_mean_log_likelihood] *)

(** The loop [for word in words: total_log_likelihood += ...]. *)
Fixpoint total_loop (bigram_probabilities : list (list tval))
    (char_to_index : gmap string Z) (start_token end_token : string)
    (total_log_likelihood : tval) (words : list string) : result tval :=
  match words with
  | [] => Ok total_log_likelihood
  | word :: words' =>
      ll ← calculate_log_likelihood word bigram_probabilities char_to_index
             start_token end_token;
      total_loop bigram_probabilities char_to_index start_token end_token
        (tadd total_log_likelihood ll) words'
  end.

(** Python's [x / n] for a float [x] and an int [n]. *)
Definition py_truediv (x : tval) (n : Z) : result tval :=
  if (n =? 0)%Z then Raise ZeroDivisionError else Ok (tdiv x (Fin (IZR n))).

Definition calculate_neg_mean_log_likelihood (words : list string)
    (bigram_probabilities : list (list tval)) (char_to_index : gmap string Z)
    (start_token end_token : string) : result tval :=
  total ← total_loop bigram_probabilities char_to_index start_token end_token
            (Fin 0) words;
  py_truediv (tneg total) (Z.of_nat (length words)).

(** ** [sample_next_character] and [generate_name] *)

Section Generation.
(** The state of the random generator, and [torch.multinomial(probs, 1)]
    on a 1-D tensor: the index drawn and the next state, or an error. *)
Context {G : Type}.
Variable multinomial : list tval → G → result (Z * G).

Definition sample_next_character (current_char_index : Z)
    (probability_distribution : list (list tval))
    (idx_to_char : gmap Z string) (g : G) : result (string * G) :=
  current_probs ← tensor_get probability_distribution current_char_index;
  '(next_char_index, g') ← multinomial current_probs g;
  next_char ← idx_to_char_get idx_to_char next_char_index;
  Ok (next_char, g').

Section Loop.
Variables (end_token : string) (char_to_idx : gmap string Z)
  (idx_to_char : gmap Z string) (bigram_probabilities : list (list tval)).

(** [n] iterations of [for _ in range(max_length)] are left. *)
Fixpoint generate_loop (n : nat) (current_char generated_name : string)
    (g : G) : result (string * G) :=
  match n with
  | O => Ok (generated_name, g)
  | S n' =>
      current_char_index ← char_to_index_get char_to_idx current_char;
      '(c, g') ← sample_next_character current_char_index
                   bigram_probabilities idx_to_char g;
      if decide (c = end_token) then Ok (generated_name, g')
      else generate_loop n' c (generated_name +:+ c) g'
  end.

(** The same loop, keeping the symbols it appends apart. *)
Fixpoint appended_symbols (n : nat) (current_char : string) (g : G)
    : result (list string * G) :=
  match n with
  | O => Ok ([], g)
  | S n' =>
      current_char_index ← char_to_index_get char_to_idx current_char;
      '(c, g') ← sample_next_character current_char_index
                   bigram_probabilities idx_to_char g;
      if decide (c = end_token) then Ok ([], g')
      else '(syms, g'') ← appended_symbols n' c g'; Ok (c :: syms, g'')
  end.
End Loop.

Definition generate_name (start_token end_token : string)
    (char_to_idx : gmap string Z) (idx_to_char : gmap Z string)
    (bigram_probabilities : list (list tval)) (max_length : Z) (g : G)
    : result (string * G) :=
  generate_loop end_token char_to_idx idx_to_char bigram_probabilities
    (Z.to_nat max_length) start_token EmptyString g.
End Generation.

(** The concatenation of a list of symbols. *)
Definition join (syms : list string) : string :=
  foldr String.append EmptyString syms.

(** ** A model of [torch.multinomial]

    [torch.multinomial] is library code.  Its documentation: the input holds
    weights that "do not need to sum to one" but "must be non-negative,
    finite and have a non-zero sum", and a violation raises [RuntimeError].
    The draw is by inversion of the cumulative weights at a uniform variate
    in [[0, 1)]; the generator is the sequence of variates still to come. *)

Definition weight (x : tval) : option R :=
  match x with
  | Fin r => if Rle_dec 0 r then Some r else None
  | _ => None
  end.

Fixpoint pick (ws : list R) (t : R) : Z :=
  match ws with
  | [] => 0
  | w :: ws' => if Rlt_dec t w then 0 else (1 + pick ws' (t - w))%Z
  end.

Record generator : Type := { uniform : nat → R; drawn : nat }.

Definition torch_multinomial (probs : list tval) (g : generator)
    : result (Z * generator) :=
  match mapM weight probs with
  | Some ws =>
      let total := foldr Rplus 0 ws in
      if Rlt_dec 0 total
      then Ok (pick ws (uniform g (drawn g) * total),
               {| uniform := uniform g; drawn := S (drawn g) |})
      else Raise RuntimeError
  | None => Raise RuntimeError
  end.

(** ** Vocabulary of the statements *)

Definition Rsum (rs : list R) : R := foldr Rplus 0 rs.

(** An entry of a count matrix: a finite, non-negative number. *)
Definition count_entry (c : tval) : Prop := ∃ r, c = Fin r ∧ 0 <= r.

(** An entry of a probability matrix: a finite number of [[0, 1]]. *)
Definition probability (p : tval) : Prop := ∃ r, p = Fin r ∧ 0 <= r <= 1.

Definition all_zero (row : list tval) : Prop := Forall (λ x, x = Fin 0) row.

(** The row of the normalised matrix, from the row of the smoothed one. *)
Definition normalised (row : list tval) : list tval :=
  map (λ x, tdiv x (tsum row)) row.

Definition probability_matrix (t : list (list tval)) : Prop :=
  Forall (Forall probability) t.

(** Every pair of indices of the vocabulary addresses a cell of the matrix. *)
Definition vocabulary_fits (char_to_index : gmap string Z)
    (t : list (list tval)) : Prop :=
  ∀ a b j k, char_to_index !! a = Some j → char_to_index !! b = Some k →
    ∃ p, tensor_get2 t j k = Ok p.

(** Every character of [s] is a key of the vocabulary. *)
Definition spelled (char_to_index : gmap string Z) (s : string) : Prop :=
  Forall (λ c, is_Some (char_to_index !! char c)) (list_ascii_of_string s).

(** The walk of the specification: the processed word is a sequence of
    symbols, the two tokens being one symbol each, and every pair of
    adjacent symbols is looked up. *)
Fixpoint symbol_walk (bigram_probabilities : list (list tval))
    (char_to_index : gmap string Z) (log_likelihood : tval)
    (prev : string) (rest : list string) : result tval :=
  match rest with
  | [] => Ok log_likelihood
  | sym :: rest' =>
      j ← char_to_index_get char_to_index prev;
      k ← char_to_index_get char_to_index sym;
      p ← tensor_get2 bigram_probabilities j k;
      symbol_walk bigram_probabilities char_to_index
        (tadd log_likelihood (tlog p)) sym rest'
  end.

Definition symbols (s : string) : list string :=
  map char (list_ascii_of_string s).

Definition score_word_by_symbols (word : string)
    (bigram_probabilities : list (list tval)) (char_to_index : gmap string Z)
    (start_token end_token : string) : result tval :=
  symbol_walk bigram_probabilities char_to_index (Fin 0) start_token
    (symbols (lower word) ++ [end_token]).

(** [e] is the [KeyError] of a key the vocabulary does not hold. *)
Definition missing_key (char_to_index : gmap string Z) (e : exn) : Prop :=
  ∃ key, e = KeyError key ∧ char_to_index !! key = None.

(** ** Concrete inputs *)

(** The alphabet of the worked example, indices 0..3. *)
Definition worked_vocabulary : gmap string Z :=
  list_to_map [("<S>", 0%Z); ("<E>", 1%Z); ("a", 2%Z); ("b", 3%Z)].

(** The same alphabet with one-character tokens. *)
Definition short_vocabulary : gmap string Z :=
  list_to_map [("^", 0%Z); ("$", 1%Z); ("a", 2%Z); ("b", 3%Z)].

Definition short_symbols : gmap Z string :=
  list_to_map [(0%Z, "^"); (1%Z, "$"); (2%Z, "a"); (3%Z, "b")].

Definition worked_symbols : gmap Z string :=
  list_to_map [(0%Z, "<S>"); (1%Z, "<E>"); (2%Z, "a"); (3%Z, "b")].

(** A probability matrix with P(start -> a) = 0.5 and P(a -> end) = 0.5. *)
Definition worked_probabilities : list (list tval) :=
  [ [Fin 0; Fin 0; Fin (1 / 2); Fin (1 / 2)];
    [Fin (1 / 4); Fin (1 / 4); Fin (1 / 4); Fin (1 / 4)];
    [Fin 0; Fin (1 / 2); Fin (1 / 4); Fin (1 / 4)];
    [Fin 0; Fin (1 / 2); Fin (1 / 4); Fin (1 / 4)] ].

(** The matrix built from no observation at all and smoothing 1. *)
Definition uniform_probabilities : list (list tval) :=
  [ [Fin (1 / 4); Fin (1 / 4); Fin (1 / 4); Fin (1 / 4)];
    [Fin (1 / 4); Fin (1 / 4); Fin (1 / 4); Fin (1 / 4)];
    [Fin (1 / 4); Fin (1 / 4); Fin (1 / 4); Fin (1 / 4)];
    [Fin (1 / 4); Fin (1 / 4); Fin (1 / 4); Fin (1 / 4)] ].

(** ** Bounds on [ln 2]

    [root_chain_above b cs]: each number of [cs] is at least the square root
    of the one before it, starting from [b]; [root_chain_below] likewise
    from below.  The two lists approach the 2^23-th root of 2. *)

Fixpoint root_chain_above (b : R) (cs : list R) : Prop :=
  match cs with
  | [] => True
  | c :: cs' => 0 < c ∧ b <= c * c ∧ root_chain_above c cs'
  end.

Fixpoint root_chain_below (b : R) (cs : list R) : Prop :=
  match cs with
  | [] => True
  | c :: cs' => 0 < c ∧ c * c <= b ∧ root_chain_below c cs'
  end.

Definition roots_above : list R :=
  [ 141421356237309505 / 100000000000000000;
    118920711500272107 / 100000000000000000;
    109050773266525767 / 100000000000000000;
    104427378242741385 / 100000000000000000;
    102189714865411669 / 100000000000000000;
    101088928605170047 / 100000000000000000;
    100542990111280283 / 100000000000000000;
    100271127505020249 / 100000000000000000;
    100135471989210821 / 100000000000000000;
    100067713069306636 / 100000000000000000;
    100033850805268232 / 100000000000000000;
    100016923970530224 / 100000000000000000;
    100008461627269432 / 100000000000000000;
    100004230724139583 / 100000000000000000;
    100002115339696482 / 100000000000000000;
    100001057664254973 / 100000000000000000;
    100000528830729177 / 100000000000000000;
    100000264415015012 / 100000000000000000;
    100000132207420112 / 100000000000000000;
    100000066103688208 / 100000000000000000;
    100000033051838642 / 100000000000000000;
    100000016525917956 / 100000000000000000;
    100000008262958637 / 100000000000000000 ].

Definition roots_below : list R :=
  [ 141421356237309504 / 100000000000000000;
    118920711500272106 / 100000000000000000;
    109050773266525765 / 100000000000000000;
    104427378242741383 / 100000000000000000;
    102189714865411667 / 100000000000000000;
    101088928605170045 / 100000000000000000;
    100542990111280281 / 100000000000000000;
    100271127505020247 / 100000000000000000;
    100135471989210819 / 100000000000000000;
    100067713069306634 / 100000000000000000;
    100033850805268230 / 100000000000000000;
    100016923970530222 / 100000000000000000;
    100008461627269430 / 100000000000000000;
    100004230724139581 / 100000000000000000;
    100002115339696480 / 100000000000000000;
    100001057664254971 / 100000000000000000;
    100000528830729175 / 100000000000000000;
    100000264415015010 / 100000000000000000;
    100000132207420110 / 100000000000000000;
    100000066103688206 / 100000000000000000;
    100000033051838640 / 100000000000000000;
    100000016525917954 / 100000000000000000;
    100000008262958635 / 100000000000000000 ].

(** The generator whose variates are all [0], before any draw. *)
Definition zero_generator : generator := {| uniform := λ _, 0; drawn := 0 |}.

(** The generator after one more draw. *)
Definition advance (g : generator) : generator :=
  {| uniform := uniform g; drawn := S (drawn g) |}.

(** A sampler that ignores the weights and draws 2, 3, 1 in turn. *)
Definition scripted_multinomial (probs : list tval) (g : nat)
    : result (Z * nat) :=
  match g with
  | 0%nat => Ok (2%Z, 1%nat)
  | 1%nat => Ok (3%Z, 2%nat)
  | _ => Ok (1%Z, S g)
  end.

(** ** Vocabulary of the further properties *)

(** An entry of a smoothed probability matrix: a finite number of
    [(0, 1]]. *)
Definition positive_probability (p : tval) : Prop :=
  ∃ r, p = Fin r ∧ 0 < r <= 1.

(** [e] is an exception of a lookup: the [KeyError] of a missing key or an
    [IndexError]. *)
Definition lookup_error (char_to_index : gmap string Z) (e : exn) : Prop :=
  missing_key char_to_index e ∨ e = IndexError.

(** Every variate of the generator lies in [[0, 1)]. *)
Definition variates_in_range (g : generator) : Prop :=
  ∀ n, 0 <= uniform g n < 1.

(** A matrix in which nothing is followed by the start token: its first
    column is zero, as when the counts are normalised without smoothing. *)
Definition unsmoothed_probabilities : list (list tval) :=
  [ [Fin 0; Fin 0; Fin (1 / 2); Fin (1 / 2)];
    [Fin 0; Fin 1; Fin 0; Fin 0];
    [Fin 0; Fin (1 / 2); Fin (1 / 4); Fin (1 / 4)];
    [Fin 0; Fin (1 / 2); Fin (1 / 4); Fin (1 / 4)] ].

(** ** The dtype of the count tensor

    [bigrams_count_to_probabilities] above is the function in exact
    arithmetic.  torch computes in the dtype of the tensor: an integer
    tensor wraps around, a floating tensor overflows to infinity.  The
    definitions below make the dtype explicit; rounding inside the range of
    the dtype stays out of the model. *)

Inductive int_dtype : Type := uint8 | int8 | int16 | int32 | int64.

(** The floating dtypes of the model are those of single and double
    precision. *)
Inductive float_dtype : Type := float32 | float64.

Definition int_min (dt : int_dtype) : Z :=
  match dt with
  | uint8 => 0
  | int8 => -128
  | int16 => -32768
  | int32 => -2147483648
  | int64 => -9223372036854775808
  end.

Definition int_max (dt : int_dtype) : Z :=
  match dt with
  | uint8 => 255
  | int8 => 127
  | int16 => 32767
  | int32 => 2147483647
  | int64 => 9223372036854775807
  end.

(** The value an integer result takes in the dtype: two's complement
    wrap-around. *)
Definition wrap (dt : int_dtype) (z : Z) : Z :=
  ((z - int_min dt) mod (int_max dt - int_min dt + 1) + int_min dt)%Z.

(** The largest finite value of a floating dtype. *)
Definition float_max (dt : float_dtype) : R :=
  match dt with
  | float32 => (2 - / 2 ^ 23) * 2 ^ 127
  | float64 => (2 - / 2 ^ 52) * 2 ^ 1023
  end.

(** Up to this value a floating dtype holds every integer, so that sums of
    counts are computed without rounding. *)
Definition exact_max (dt : float_dtype) : R :=
  match dt with
  | float32 => 2 ^ 24
  | float64 => 2 ^ 53
  end.

(** The value a floating result takes in the dtype: infinite beyond the
    largest finite value. *)
Definition overflow (dt : float_dtype) (x : tval) : tval :=
  match x with
  | Fin r =>
      if Rlt_dec (float_max dt) r then PInf
      else if Rlt_dec r (- float_max dt) then NInf
      else Fin r
  | _ => x
  end.

(** A 2-D tensor of counts with its dtype. *)
Inductive tensor : Type :=
  | IntTensor (dt : int_dtype) (rows : list (list Z))
  | FloatTensor (dt : float_dtype) (rows : list (list tval)).

(** The elements of a tensor as numbers. *)
Definition values (t : tensor) : list (list tval) :=
  match t with
  | IntTensor _ rows => map (map (λ c, Fin (IZR c))) rows
  | FloatTensor _ rows => rows
  end.

Definition Zsum (row : list Z) : Z := foldr Z.add 0%Z row.

(** [bigrams_count_to_probabilities] with the dtype of [bigram_counts]:
    - an integer tensor plus a Python [int] is a tensor of the same dtype,
      its [.sum(dim=1)] is an [int64] tensor, and the division of the two
      is the true division, done in [float32];
    - a floating tensor keeps its dtype through the three operations. *)
Definition bigrams_count_to_probabilities_dtype (bigram_counts : tensor)
    (smooth_factor : Z) : list (list tval) :=
  match bigram_counts with
  | IntTensor dt rows =>
      let smoothed := map (map (λ c, wrap dt (c + smooth_factor))) rows in
      let totals := map (λ row, wrap int64 (Zsum row)) smoothed in
      zip_with (λ row d, map (λ x, tdiv (Fin (IZR x)) (Fin (IZR d))) row)
        smoothed totals
  | FloatTensor dt rows =>
      let smoothed :=
        map (map (λ c, overflow dt (tadd c (Fin (IZR smooth_factor))))) rows in
      let totals := map (λ row, overflow dt (tsum row)) smoothed in
      zip_with (λ row d, map (λ x, overflow dt (tdiv x d)) row)
        smoothed totals
  end.

(** A non-negative whole number, as a tensor element. *)
Definition integer_count (c : tval) : Prop :=
  ∃ z : Z, c = Fin (IZR z) ∧ (0 <= z)%Z.

(** The largest row total the dtype computes exactly: the [int64] range for
    an integer tensor, the range of exact integers for a floating one. *)
Definition total_max (t : tensor) : R :=
  match t with
  | IntTensor _ _ => IZR (int_max int64)
  | FloatTensor dt _ => exact_max dt
  end.

(** The entries are counts the dtype holds, also once smoothed. *)
Definition entries_fit (t : tensor) (s : Z) : Prop :=
  match t with
  | IntTensor dt rows =>
      Forall (Forall (λ c, (0 <= c ∧ c + s <= int_max dt)%Z)) rows
  | FloatTensor _ rows => Forall (Forall integer_count) rows
  end.

(** The arithmetic of the dtype is exact on the counts with smoothing [s]:
    nothing wraps around, overflows or is rounded before the division. *)
Definition exact_on (t : tensor) (s : Z) : Prop :=
  (0 <= s)%Z ∧ entries_fit t s
  ∧ Forall (λ row, tle (tsum row) (Fin (total_max t)))
      (smoothed_bigram_counts (values t) s).

(** * Properties *)

(** ** Arithmetic of tensor elements *)

Lemma Rsign_pos r : 0 < r → Rsign r = Pos.
Proof.
  intros H. unfold Rsign.
  destruct (total_order_T r 0) as [[?|?]|?]; [lra|lra|done].
Qed.

Lemma Rsign_neg r : r < 0 → Rsign r = Neg.
Proof.
  intros H. unfold Rsign.
  destruct (total_order_T r 0) as [[?|?]|?]; [done|lra|lra].
Qed.

Lemma Rsign_zero : Rsign 0 = Zero.
Proof.
  unfold Rsign. destruct (total_order_T 0 0) as [[?|?]|?]; [lra|done|lra].
Qed.

Lemma Rsign_case r :
  (r < 0 ∧ Rsign r = Neg) ∨ (r = 0 ∧ Rsign r = Zero)
  ∨ (0 < r ∧ Rsign r = Pos).
Proof.
  destruct (total_order_T r 0) as [[?| ->]|?];
    auto using Rsign_pos, Rsign_neg, Rsign_zero.
Qed.

Lemma tdiv_Fin a b : b ≠ 0 → tdiv (Fin a) (Fin b) = Fin (a / b).
Proof.
  intros Hb. simpl. destruct (Rsign_case b) as [[? ->]|[[? ->]|[? ->]]]; done.
Qed.

Lemma tdiv_zero_zero : tdiv (Fin 0) (Fin 0) = NaN.
Proof. simpl. by rewrite Rsign_zero. Qed.

Lemma tsum_Fin rs : tsum (map Fin rs) = Fin (Rsum rs).
Proof.
  induction rs as [|r rs IH]; [done|]. unfold tsum in *. simpl. by rewrite IH.
Qed.

Lemma Rsum_nonneg rs : Forall (λ r, 0 <= r) rs → 0 <= Rsum rs.
Proof. induction 1; simpl; lra. Qed.

Lemma Rsum_upper rs r : Forall (λ r, 0 <= r) rs → r ∈ rs → r <= Rsum rs.
Proof.
  induction 1 as [|x rs Hx Hrs IH]; intros Hin.
  - by apply elem_of_nil in Hin.
  - apply elem_of_cons in Hin as [->|Hin]; simpl.
    + pose proof (Rsum_nonneg rs Hrs). lra.
    + specialize (IH Hin). lra.
Qed.

Lemma Rsum_zero rs :
  Forall (λ r, 0 <= r) rs → Rsum rs = 0 → Forall (λ r, r = 0) rs.
Proof.
  induction 1 as [|x rs Hx Hrs IH]; intros Hs; [constructor|].
  simpl in Hs. pose proof (Rsum_nonneg rs Hrs).
  constructor; [lra|]. apply IH. lra.
Qed.

Lemma Rsum_scale rs t : Rsum (map (λ r, r / t) rs) = Rsum rs / t.
Proof. induction rs as [|r rs IH]; simpl; [lra|]. rewrite IH. lra. Qed.

(** ** The probability builder *)

Lemma zip_with_map_r {A B C} (f : A → B → C) (g : A → B) l :
  zip_with f l (map g l) = map (λ x, f x (g x)) l.
Proof. induction l as [|x l IH]; simpl; [done|]. by rewrite IH. Qed.

Lemma bigrams_count_to_probabilities_rows counts s :
  bigrams_count_to_probabilities counts s
  = map normalised (smoothed_bigram_counts counts s).
Proof.
  unfold bigrams_count_to_probabilities, denominator.
  by rewrite zip_with_map_r.
Qed.

Lemma count_entries_reals row :
  Forall count_entry row → ∃ rs, row = map Fin rs ∧ Forall (λ r, 0 <= r) rs.
Proof.
  induction 1 as [|c row (r & -> & Hr) _ (rs & -> & Hrs)].
  - by exists [].
  - exists (r :: rs). split; [done|]. by constructor.
Qed.

Lemma smoothed_reals rs s :
  map (λ c, tadd c (Fin s)) (map Fin rs) = map Fin (map (λ r, r + s) rs).
Proof. induction rs as [|r rs IH]; simpl; [done|]. by rewrite IH. Qed.

Lemma normalised_reals qs :
  Rsum qs ≠ 0 → normalised (map Fin qs) = map Fin (map (λ q, q / Rsum qs) qs).
Proof.
  intros Ht. unfold normalised. rewrite tsum_Fin.
  revert Ht. generalize (Rsum qs). intros t Hne.
  induction qs as [|q qs IH]; cbn [map]; [done|].
  by rewrite IH, tdiv_Fin.
Qed.

Lemma normalised_zero_total qs :
  Forall (λ q, 0 <= q) qs → Rsum qs = 0 →
  normalised (map Fin qs) = map (λ _, NaN) qs.
Proof.
  intros Hqs Ht. unfold normalised. rewrite tsum_Fin, Ht.
  pose proof (Rsum_zero qs Hqs Ht) as Hz. clear Hqs Ht.
  induction Hz as [|q qs -> _ IH]; cbn [map]; [done|].
  by rewrite IH, tdiv_zero_zero.
Qed.

(** A smoothed row of non-negative numbers is normalised to a distribution
    unless all its entries are zero. *)
Lemma normalised_distribution qs :
  Forall (λ q, 0 <= q) qs → ¬ all_zero (map Fin qs) →
  tsum (normalised (map Fin qs)) = Fin 1
  ∧ Forall probability (normalised (map Fin qs)).
Proof.
  intros Hqs Hnz.
  assert (0 < Rsum qs) as Hpos.
  { pose proof (Rsum_nonneg qs Hqs) as [?|Heq]; [done|]. exfalso. apply Hnz.
    unfold all_zero. apply Forall_map.
    eapply Forall_impl; [apply (Rsum_zero qs Hqs); done|].
    intros q ->. done. }
  rewrite normalised_reals by lra. split.
  - rewrite tsum_Fin, Rsum_scale. f_equal. field. lra.
  - apply Forall_map, Forall_map. apply Forall_forall. intros q Hq.
    exists (q / Rsum qs). split; [done|].
    pose proof (Rsum_upper qs q Hqs Hq).
    assert (0 <= q) by (by eapply Forall_forall in Hqs).
    pose proof (Rinv_0_lt_compat _ Hpos) as Hinv. unfold Rdiv. split.
    + apply Rmult_le_pos; lra.
    + replace 1 with (Rsum qs * / Rsum qs) by (field; lra).
      apply Rmult_le_compat_r; lra.
Qed.

Lemma Rsign_eq0 r : r = 0 → Rsign r = Zero.
Proof. intros ->. apply Rsign_zero. Qed.

(** Decide every [Rsign] of the goal by linear arithmetic. *)
Ltac eval_Rsign :=
  repeat match goal with
  | |- context [Rsign ?e] =>
      first [ rewrite (Rsign_pos e) by lra
            | rewrite (Rsign_neg e) by lra
            | rewrite (Rsign_eq0 e) by lra ]
  end.

(** Close an equation between tensors of explicit numbers. *)
Ltac tensor_eq := cbn; eval_Rsign; repeat f_equal; lra.

Lemma smoothed_row_nonneg rs s :
  (0 <= s)%Z → Forall (λ r, 0 <= r) rs →
  Forall (λ r, 0 <= r) (map (λ r, r + IZR s) rs).
Proof.
  intros Hs Hrs. apply Forall_map. eapply Forall_impl; [exact Hrs|].
  intros r Hr. simpl. apply IZR_le in Hs. lra.
Qed.

(** In exact arithmetic the rows of non-negative counts are normalised to
    distributions. *)
Lemma exact_rows_stochastic (counts : list (list tval)) (s : Z) :
  (0 <= s)%Z →
  Forall (Forall count_entry) counts →
  Forall (λ row, ¬ all_zero row) (smoothed_bigram_counts counts s) →
  Forall (λ row, (∃ t, tsum row = Fin t ∧ Rabs (t - 1) <= 1 / 1000000)
                 ∧ Forall probability row)
    (bigrams_count_to_probabilities counts s).
Proof.
  intros Hs Hcounts Hnz. rewrite bigrams_count_to_probabilities_rows.
  unfold smoothed_bigram_counts in *.
  apply Forall_map. apply Forall_map in Hnz.
  induction Hcounts as [|row counts Hrow _ IH]; [constructor|].
  apply Forall_cons in Hnz as [Hnz_row Hnz]. constructor; [|by apply IH].
  simpl in *. destruct (count_entries_reals row Hrow) as (rs & -> & Hrs).
  rewrite smoothed_reals in *.
  destruct (normalised_distribution (map (λ r, r + IZR s) rs)) as [Hsum Hprob];
    [by apply smoothed_row_nonneg|done|].
  split; [|done]. exists 1. split; [done|].
  replace (1 - 1) with 0 by lra. rewrite Rabs_R0. lra.
Qed.

(** *** The builder in the dtype of the tensor *)

Lemma wrap_id dt z : (int_min dt <= z <= int_max dt)%Z → wrap dt z = z.
Proof.
  intros Hz. unfold wrap. rewrite Z.mod_small; [lia|].
  destruct dt; simpl in *; lia.
Qed.

Lemma exact_max_float_max dt : 1 <= exact_max dt <= float_max dt.
Proof. destruct dt; simpl; lra. Qed.

Lemma overflow_id dt r :
  - float_max dt <= r <= float_max dt → overflow dt (Fin r) = Fin r.
Proof.
  intros Hr. unfold overflow.
  destruct (Rlt_dec (float_max dt) r); [lra|].
  destruct (Rlt_dec r (- float_max dt)); [lra|done].
Qed.

Lemma overflow_above dt r : float_max dt < r → overflow dt (Fin r) = PInf.
Proof. intros Hr. unfold overflow. by destruct (Rlt_dec (float_max dt) r). Qed.

Lemma map_ext_Forall {A B} (f g : A → B) (l : list A) :
  Forall (λ x, f x = g x) l → map f l = map g l.
Proof. induction 1 as [|x l Hx _ IH]; [done|]. simpl. by rewrite Hx, IH. Qed.

Lemma Zsum_nonneg row : Forall (λ c, (0 <= c)%Z) row → (0 <= Zsum row)%Z.
Proof. induction 1; simpl; lia. Qed.

Lemma tsum_IZR row : tsum (map (λ c, Fin (IZR c)) row) = Fin (IZR (Zsum row)).
Proof.
  induction row as [|c row IH]; [done|]. unfold tsum in *. simpl.
  by rewrite IH, plus_IZR.
Qed.

Lemma smoothed_integers row s :
  map (λ c, tadd c (Fin (IZR s))) (map (λ c, Fin (IZR c)) row)
  = map (λ c, Fin (IZR c)) (map (λ c, (c + s)%Z) row).
Proof.
  induction row as [|c row IH]; [done|]. simpl. by rewrite IH, plus_IZR.
Qed.

(** A row of an integer tensor on which nothing wraps around. *)
Lemma int_row_exact dt row s :
  (0 <= s)%Z →
  Forall (λ c, (0 <= c ∧ c + s <= int_max dt)%Z) row →
  tle (tsum (map (λ c, tadd c (Fin (IZR s))) (map (λ c, Fin (IZR c)) row)))
    (Fin (IZR (int_max int64))) →
  let smoothed := map (λ c, wrap dt (c + s)) row in
  map (λ x, tdiv (Fin (IZR x)) (Fin (IZR (wrap int64 (Zsum smoothed)))))
    smoothed
  = normalised (map (λ c, tadd c (Fin (IZR s))) (map (λ c, Fin (IZR c)) row)).
Proof.
  intros Hs Hrow Htotal. cbn zeta.
  assert (map (λ c, wrap dt (c + s)) row = map (λ c, (c + s)%Z) row) as ->.
  { apply map_ext_Forall. eapply Forall_impl; [exact Hrow|].
    intros c [Hc Hcs]. cbn beta. apply wrap_id. destruct dt; simpl in *; lia. }
  rewrite smoothed_integers in *. rewrite tsum_IZR in Htotal.
  cbn [tle] in Htotal. apply le_IZR in Htotal.
  rewrite wrap_id.
  - unfold normalised. by rewrite tsum_IZR, !map_map.
  - split; [|done]. transitivity 0%Z; [done|].
    apply Zsum_nonneg, Forall_map. eapply Forall_impl; [exact Hrow|].
    intros c [Hc _]. cbn beta. lia.
Qed.

Lemma integer_count_entry c : integer_count c → count_entry c.
Proof.
  intros (z & -> & Hz). exists (IZR z). split; [done|]. by apply IZR_le in Hz.
Qed.

(** A row of a floating tensor on which nothing overflows. *)
Lemma float_row_exact dt row s :
  (0 <= s)%Z →
  Forall integer_count row →
  tle (tsum (map (λ c, tadd c (Fin (IZR s))) row)) (Fin (exact_max dt)) →
  let smoothed := map (λ c, overflow dt (tadd c (Fin (IZR s)))) row in
  map (λ x, overflow dt (tdiv x (overflow dt (tsum smoothed)))) smoothed
  = normalised (map (λ c, tadd c (Fin (IZR s))) row).
Proof.
  intros Hs Hrow Htotal. cbn zeta.
  assert (Forall count_entry row) as Hentries
    by (eapply Forall_impl; [exact Hrow|]; apply integer_count_entry).
  destruct (count_entries_reals row Hentries) as (rs & -> & Hrs).
  rewrite smoothed_reals in Htotal. rewrite tsum_Fin in Htotal.
  cbn [tle] in Htotal.
  pose proof (smoothed_row_nonneg rs s Hs Hrs) as Hnn.
  pose proof (exact_max_float_max dt) as [Hone Hmax].
  pose proof (Rsum_nonneg _ Hnn) as Hsum.
  assert (map (λ c, overflow dt (tadd c (Fin (IZR s)))) (map Fin rs)
          = map Fin (map (λ r, r + IZR s) rs)) as ->.
  { rewrite <- smoothed_reals, !map_map. apply map_ext_Forall.
    apply Forall_forall. intros r Hr. cbn [tadd]. apply overflow_id.
    assert (r + IZR s ∈ map (λ r, r + IZR s) rs) as Hin.
    { apply list_elem_of_In. apply (in_map (λ r, r + IZR s)).
      by apply list_elem_of_In. }
    pose proof (Rsum_upper _ _ Hnn Hin).
    assert (0 <= r + IZR s) by (by eapply Forall_forall in Hnn).
    lra. }
  rewrite smoothed_reals, tsum_Fin, overflow_id by lra.
  set (qs := map (λ r, r + IZR s) rs) in *.
  destruct Hsum as [Hpos | Hzero].
  - rewrite normalised_reals by lra. rewrite !map_map.
    apply map_ext_Forall, Forall_forall. intros q Hq. cbn beta.
    rewrite tdiv_Fin by lra. apply overflow_id.
    pose proof (Rsum_upper _ _ Hnn Hq).
    assert (0 <= q) by (by eapply Forall_forall in Hnn).
    pose proof (Rinv_0_lt_compat _ Hpos) as Hinv.
    assert (0 <= q / Rsum qs) by (unfold Rdiv; apply Rmult_le_pos; lra).
    assert (q / Rsum qs <= 1).
    { unfold Rdiv. replace 1 with (Rsum qs * / Rsum qs) by (field; lra).
      apply Rmult_le_compat_r; lra. }
    lra.
  - rewrite normalised_zero_total by done. rewrite <- Hzero, map_map.
    apply map_ext_Forall.
    pose proof (Rsum_zero qs Hnn (eq_sym Hzero)) as Hz.
    eapply Forall_impl; [exact Hz|]. intros q ->. cbn beta.
    by rewrite tdiv_zero_zero.
Qed.

Lemma exact_on_count_entries t s :
  exact_on t s → Forall (Forall count_entry) (values t).
Proof.
  intros (_ & Hfit & _). destruct t as [dt rows|dt rows]; simpl in *.
  - apply Forall_map. eapply Forall_impl; [exact Hfit|]. intros row Hrow.
    apply Forall_map. eapply Forall_impl; [exact Hrow|]. intros c [Hc _].
    exists (IZR c). split; [done|]. by apply IZR_le in Hc.
  - eapply Forall_impl; [exact Hfit|]. intros row Hrow.
    eapply Forall_impl; [exact Hrow|]. apply integer_count_entry.
Qed.

(** Where the arithmetic of the dtype is exact, the function computes what
    it computes in exact arithmetic. *)
Lemma bigrams_count_to_probabilities_dtype_exact t s :
  exact_on t s →
  bigrams_count_to_probabilities_dtype t s
  = bigrams_count_to_probabilities (values t) s.
Proof.
  intros (Hs & Hfit & Htotals). rewrite bigrams_count_to_probabilities_rows.
  unfold smoothed_bigram_counts in *. apply Forall_map in Htotals.
  destruct t as [dt rows|dt rows]; cbn [bigrams_count_to_probabilities_dtype
    values entries_fit total_max] in *.
  - rewrite zip_with_map_r, !map_map. apply map_ext_Forall.
    apply Forall_map in Htotals.
    apply Forall_forall. intros row Hrow.
    eapply Forall_forall in Hfit; [|exact Hrow].
    eapply Forall_forall in Htotals; [|exact Hrow].
    by apply int_row_exact.
  - rewrite zip_with_map_r, !map_map. apply map_ext_Forall.
    apply Forall_forall. intros row Hrow.
    eapply Forall_forall in Hfit; [|exact Hrow].
    eapply Forall_forall in Htotals; [|exact Hrow].
    by apply float_row_exact.
Qed.

(** C1, as the code has it: for a tensor of non-negative counts and a
    smoothing constant [s >= 0] on which the arithmetic of the dtype is
    exact (no entry and no row total leaves the range of the dtype), and
    such that no row of the smoothed matrix is all zero, the matrix returned
    has one row for each row of counts, every row sums to 1 within 1e-6
    and every entry lies in [[0, 1]]. *)
Theorem bigrams_count_to_probabilities_row_stochastic
    (counts : tensor) (s : Z) :
  exact_on counts s →
  Forall (λ row, ¬ all_zero row) (smoothed_bigram_counts (values counts) s) →
  length (bigrams_count_to_probabilities_dtype counts s)
  = length (values counts)
  ∧ Forall (λ row, (∃ t, tsum row = Fin t ∧ Rabs (t - 1) <= 1 / 1000000)
                   ∧ Forall probability row)
      (bigrams_count_to_probabilities_dtype counts s).
Proof.
  intros Hexact Hnz. rewrite bigrams_count_to_probabilities_dtype_exact by done.
  split.
  - rewrite bigrams_count_to_probabilities_rows. unfold smoothed_bigram_counts.
    by rewrite !length_map.
  - apply exact_rows_stochastic; [by destruct Hexact| |done].
    by eapply exact_on_count_entries.
Qed.

Lemma bigrams_count_to_probabilities_row_stochastic_witness :
  length (bigrams_count_to_probabilities_dtype
            (FloatTensor float32 [[Fin 0; Fin 0; Fin 3; Fin 1]]) 1)
  = length (values (FloatTensor float32 [[Fin 0; Fin 0; Fin 3; Fin 1]]))
  ∧ Forall (λ row, (∃ t, tsum row = Fin t ∧ Rabs (t - 1) <= 1 / 1000000)
                   ∧ Forall probability row)
      (bigrams_count_to_probabilities_dtype
         (FloatTensor float32 [[Fin 0; Fin 0; Fin 3; Fin 1]]) 1).
Proof.
  apply (bigrams_count_to_probabilities_row_stochastic
           (FloatTensor float32 [[Fin 0; Fin 0; Fin 3; Fin 1]]) 1).
  - split; [lia|]. split.
    + repeat constructor;
        [by exists 0%Z|by exists 0%Z|by exists 3%Z|by exists 1%Z].
    + repeat constructor. simpl. lra.
  - repeat constructor. intros H. apply Forall_cons in H as [H _].
    simpl in H. injection H. lra.
Defined.

(** C1, as the claim states it, fails: the float32 counts [[3e38, 3e38]]
    with smoothing 1 are non-negative and not all zero, their total
    overflows to infinity and the row returned is [0, 0], which sums to 0;
    the int64 counts [[2^62, 2^62]] (2^62 = 4611686018427387904) without
    smoothing have a total that wraps around to -2^63, and the row returned
    is [-1/2, -1/2]. *)
Lemma row_total_overflows :
  Forall (Forall count_entry) [[Fin (3 * 10 ^ 38); Fin (3 * 10 ^ 38)]]
  ∧ ¬ all_zero (map (λ c, tadd c (Fin 1)) [Fin (3 * 10 ^ 38); Fin (3 * 10 ^ 38)])
  ∧ bigrams_count_to_probabilities_dtype
      (FloatTensor float32 [[Fin (3 * 10 ^ 38); Fin (3 * 10 ^ 38)]]) 1
    = [[Fin 0; Fin 0]]
  ∧ tsum [Fin 0; Fin 0] = Fin 0
  ∧ ¬ Rabs (0 - 1) <= 1 / 1000000
  ∧ ¬ probability (Fin (- (1 / 2)))
  ∧ bigrams_count_to_probabilities_dtype
      (IntTensor int64 [[4611686018427387904; 4611686018427387904]%Z]) 0
    = [[Fin (- (1 / 2)); Fin (- (1 / 2))]].
Proof.
  split; [|split; [|split; [|split; [|split; [|split]]]]].
  - repeat constructor; eexists; (split; [reflexivity|lra]).
  - intros H. apply Forall_cons in H as [H _]. simpl in H. injection H. lra.
  - cbn [bigrams_count_to_probabilities_dtype map zip_with tadd].
    rewrite (overflow_id float32 (3 * 10 ^ 38 + 1)) by (simpl; lra).
    cbn [tsum foldr tadd]. rewrite overflow_above by (simpl; lra).
    cbn [tdiv]. by rewrite (overflow_id float32 0) by (simpl; lra).
  - tensor_eq.
  - unfold Rabs. destruct (Rcase_abs (0 - 1)); lra.
  - intros (r & [= <-] & Hr). lra.
  - cbn [bigrams_count_to_probabilities_dtype map zip_with].
    change (wrap int64 (4611686018427387904 + 0))
      with 4611686018427387904%Z.
    change (wrap int64 (Zsum [4611686018427387904; 4611686018427387904]%Z))
      with (-9223372036854775808)%Z.
    rewrite tdiv_Fin by lra. repeat f_equal; lra.
Qed.

Lemma lookup_map {A B} (f : A → B) (l : list A) (i : nat) :
  map f l !! i = f <$> (l !! i).
Proof. revert i. induction l as [|x l IH]; intros [|i]; simpl; auto. Qed.

(** C2, as the code has it: when the total of a smoothed row is zero,
    [bigrams_count_to_probabilities] raises nothing and returns a matrix in
    which every entry of that row is NaN. *)
Theorem bigrams_count_to_probabilities_zero_total
    (counts : list (list tval)) (s : Z) (i : nat) (row : list tval) :
  (0 <= s)%Z →
  Forall (Forall count_entry) counts →
  smoothed_bigram_counts counts s !! i = Some row →
  tsum row = Fin 0 →
  bigrams_count_to_probabilities counts s !! i = Some (map (λ _, NaN) row).
Proof.
  intros Hs Hcounts Hrow Hzero. rewrite bigrams_count_to_probabilities_rows.
  unfold smoothed_bigram_counts in *.
  rewrite !lookup_map in *.
  destruct (counts !! i) as [crow|] eqn:Hi; [|done]. simpl in *.
  injection Hrow as <-.
  assert (Forall count_entry crow) as Hc.
  { eapply Forall_forall in Hcounts; [done|]. by eapply list_elem_of_lookup_2. }
  destruct (count_entries_reals crow Hc) as (rs & -> & Hrs). f_equal.
  rewrite smoothed_reals in *.
  rewrite tsum_Fin in Hzero. injection Hzero as Hzero.
  rewrite normalised_zero_total; [|by apply smoothed_row_nonneg|done].
  by rewrite !map_map.
Qed.

Lemma bigrams_count_to_probabilities_zero_total_witness :
  bigrams_count_to_probabilities [[Fin 0; Fin 0]; [Fin 1; Fin 1]] 0 !! 0%nat
  = Some [NaN; NaN].
Proof.
  apply (bigrams_count_to_probabilities_zero_total
           [[Fin 0; Fin 0]; [Fin 1; Fin 1]] 0 0 [Fin (0 + 0); Fin (0 + 0)]).
  - lia.
  - repeat constructor; eexists; (split; [reflexivity|lra]).
  - reflexivity.
  - tensor_eq.
Defined.

(** C2, as the claim states it, fails: with counts [[0, 0], [1, 1]] and no
    smoothing the first row has total zero, and the call returns a matrix
    whose first row is NaN instead of raising. *)
Lemma zero_total_row_returns_nan :
  let counts := [[Fin 0; Fin 0]; [Fin 1; Fin 1]] in
  tsum <$> (smoothed_bigram_counts counts 0 !! 0%nat) = Some (Fin 0)
  ∧ bigrams_count_to_probabilities counts 0
    = [[NaN; NaN]; [Fin (1 / 2); Fin (1 / 2)]]
  ∧ @Ok (list (list tval)) (bigrams_count_to_probabilities counts 0)
    ≠ Raise (DomainError NoObservedContinuations).
Proof.
  split; [|split]; [tensor_eq| |done].
  unfold bigrams_count_to_probabilities, smoothed_bigram_counts, denominator.
  cbn. eval_Rsign. repeat f_equal; lra.
Qed.

(** ** The scorer *)

Lemma bind_Ok {A B} (f : A → result B) (a : A) : (Ok a ≫= f) = f a.
Proof. reflexivity. Qed.

Lemma bind_Raise {A B} (f : A → result B) (e : exn) :
  (Raise e ≫= f) = Raise e.
Proof. reflexivity. Qed.

Lemma char_to_index_get_Some d key i :
  d !! key = Some i → char_to_index_get d key = Ok i.
Proof. unfold char_to_index_get. by intros ->. Qed.

Lemma char_to_index_get_None d key :
  d !! key = None → char_to_index_get d key = Raise (KeyError key).
Proof. unfold char_to_index_get. by intros ->. Qed.

Lemma tensor_get_raises {A} (t : list A) i e :
  tensor_get t i = Raise e → e = IndexError.
Proof.
  unfold tensor_get. intros H.
  repeat (case_match; simplify_eq); done.
Qed.

Lemma tensor_get2_raises t j k e : tensor_get2 t j k = Raise e → e = IndexError.
Proof.
  unfold tensor_get2. destruct (tensor_get t j) as [row|e'] eqn:Hrow; simpl.
  - apply tensor_get_raises.
  - intros [= <-]. by eapply tensor_get_raises.
Qed.

Lemma tensor_get_elem {A} (t : list A) i x : tensor_get t i = Ok x → x ∈ t.
Proof.
  unfold tensor_get. intros H.
  repeat (case_match; simplify_eq); by eapply list_elem_of_lookup_2.
Qed.

Lemma tensor_get2_probability t j k p :
  probability_matrix t → tensor_get2 t j k = Ok p → probability p.
Proof.
  unfold tensor_get2, probability_matrix. intros Ht.
  destruct (tensor_get t j) as [row|e] eqn:Hrow; simpl; [|done].
  intros Hp. apply tensor_get_elem in Hrow, Hp.
  eapply Forall_forall in Ht; [|exact Hrow].
  by eapply Forall_forall in Ht.
Qed.

Lemma list_ascii_of_string_app s1 s2 :
  list_ascii_of_string (s1 +:+ s2)
  = list_ascii_of_string s1 ++ list_ascii_of_string s2.
Proof. induction s1 as [|c s1 IH]; simpl; [done|]. by rewrite IH. Qed.

Lemma processed_word_chars word start_token end_token :
  list_ascii_of_string (processed_word word start_token end_token)
  = list_ascii_of_string start_token ++ list_ascii_of_string (lower word)
    ++ list_ascii_of_string end_token.
Proof. unfold processed_word. by rewrite !list_ascii_of_string_app. Qed.

(** *** Unknown symbols *)

Lemma bigram_loop_missing t d acc prev rest c :
  rest ≠ [] → c ∈ prev :: rest → d !! char c = None →
  ∃ e, bigram_loop t d acc prev rest = Raise e
       ∧ (missing_key d e ∨ e = IndexError ∧ ¬ vocabulary_fits d t).
Proof.
  revert acc prev. induction rest as [|c1 rest IH]; intros acc prev Hne Hin Hc;
    [done|]. cbn [bigram_loop].
  destruct (d !! char prev) as [j|] eqn:Hprev.
  2:{ rewrite (char_to_index_get_None _ _ Hprev), bind_Raise.
      eexists. split; [done|]. left. by eexists. }
  rewrite (char_to_index_get_Some _ _ _ Hprev), bind_Ok.
  destruct (d !! char c1) as [k|] eqn:Hc1.
  2:{ rewrite (char_to_index_get_None _ _ Hc1), bind_Raise.
      eexists. split; [done|]. left. by eexists. }
  rewrite (char_to_index_get_Some _ _ _ Hc1), bind_Ok.
  destruct (tensor_get2 t j k) as [p|e] eqn:Hp; [rewrite bind_Ok|rewrite bind_Raise].
  2:{ exists e. split; [done|]. right.
      split; [by eapply tensor_get2_raises|].
      intros Hfits. destruct (Hfits _ _ _ _ Hprev Hc1) as [p Hp']. congruence. }
  apply elem_of_cons in Hin as [->|Hin]; [congruence|].
  apply IH; [|done|done].
  intros ->. apply elem_of_cons in Hin as [->|Hin]; [congruence|].
  by apply elem_of_nil in Hin.
Qed.

(** Evaluate the dictionary lookups of the goal. *)
Ltac eval_dict :=
  repeat match goal with
  | |- context [char_to_index_get ?d ?key] =>
      first [ rewrite (char_to_index_get_None d key) by (vm_compute; reflexivity)
            | erewrite (char_to_index_get_Some d key) by (vm_compute; reflexivity) ];
      rewrite ?bind_Ok, ?bind_Raise
  end.

(** C4, as the code has it: when the lower-cased word holds a character
    that is no key of [char_to_index] and the processed word has at least
    two characters, [calculate_log_likelihood] returns nothing: it raises
    the [KeyError] of a missing key, unless an [IndexError] comes first
    because an index of the vocabulary is out of the matrix. *)
Theorem calculate_log_likelihood_unknown_symbol
    (word : string) (t : list (list tval)) (d : gmap string Z)
    (start_token end_token : string) (c : ascii) :
  c ∈ list_ascii_of_string (lower word) →
  d !! char c = None →
  (2 <= length (list_ascii_of_string
                  (processed_word word start_token end_token)))%nat →
  ∃ e, calculate_log_likelihood word t d start_token end_token = Raise e
       ∧ ¬ is_DomainError e
       ∧ (missing_key d e ∨ e = IndexError ∧ ¬ vocabulary_fits d t).
Proof.
  intros Hin Hc Hlen. unfold calculate_log_likelihood.
  assert (c ∈ list_ascii_of_string (processed_word word start_token end_token))
    as Hin'.
  { rewrite processed_word_chars. set_solver. }
  destruct (list_ascii_of_string (processed_word word start_token end_token))
    as [|c0 rest]; [by apply elem_of_nil in Hin'|].
  destruct (bigram_loop_missing t d (Fin 0) c0 rest c) as (e & He & Hkind);
    [|done|done|].
  { intros ->. simpl in Hlen. lia. }
  exists e. split; [done|]. split; [|done].
  intros [why ->]. destruct Hkind as [(key & [=] & _)|[[=] _]].
Qed.

Lemma calculate_log_likelihood_unknown_symbol_witness :
  ∃ e, calculate_log_likelihood "b" worked_probabilities
         (list_to_map [("^", 0%Z); ("$", 1%Z); ("a", 2%Z)]) "^" "$" = Raise e
       ∧ ¬ is_DomainError e
       ∧ (missing_key (list_to_map [("^", 0%Z); ("$", 1%Z); ("a", 2%Z)]) e
          ∨ e = IndexError
            ∧ ¬ vocabulary_fits
                  (list_to_map [("^", 0%Z); ("$", 1%Z); ("a", 2%Z)])
                  worked_probabilities).
Proof.
  apply (calculate_log_likelihood_unknown_symbol "b" worked_probabilities
           (list_to_map [("^", 0%Z); ("$", 1%Z); ("a", 2%Z)]) "^" "$" "b"%char).
  - simpl. set_solver.
  - vm_compute. reflexivity.
  - simpl. lia.
Defined.

(** C4, as the claim states it, fails: the word "b" over the vocabulary
    {^, $, a} raises [KeyError], which is no [DomainError]. *)
Lemma unknown_symbol_raises_KeyError :
  calculate_log_likelihood "b" worked_probabilities
    (list_to_map [("^", 0%Z); ("$", 1%Z); ("a", 2%Z)]) "^" "$"
  = Raise (KeyError "b")
  ∧ Raise (KeyError "b") ≠ @Raise tval (DomainError UnknownSymbol).
Proof.
  split; [|done]. unfold calculate_log_likelihood. cbn. by eval_dict.
Qed.

(** With empty tokens a one-character word has no bigram at all, and its
    only character is never looked up. *)
Lemma calculate_log_likelihood_no_bigram :
  calculate_log_likelihood "b" worked_probabilities ∅ EmptyString EmptyString
  = Ok (Fin 0).
Proof. reflexivity. Qed.

(** C3, as the code has it: on the empty list the loop adds nothing and the
    final division by [len(words) = 0] raises [ZeroDivisionError]. *)
Theorem calculate_neg_mean_log_likelihood_empty
    (t : list (list tval)) (d : gmap string Z)
    (start_token end_token : string) :
  calculate_neg_mean_log_likelihood [] t d start_token end_token
  = Raise ZeroDivisionError.
Proof. reflexivity. Qed.

(** C3, as the claim states it, fails: the empty corpus does fail, but by
    the division by zero itself and not by a [DomainError]. *)
Lemma empty_corpus_raises_ZeroDivisionError :
  calculate_neg_mean_log_likelihood [] worked_probabilities worked_vocabulary
    default_start_token default_end_token
  ≠ Raise (DomainError EmptyCorpus)
  ∧ calculate_neg_mean_log_likelihood [] worked_probabilities
      worked_vocabulary default_start_token default_end_token
    = Raise ZeroDivisionError.
Proof. split; [|reflexivity]. discriminate. Qed.

Lemma tadd_0_l x : tadd (Fin 0) x = x.
Proof. destruct x; simpl; [|done..]. f_equal. lra. Qed.

Lemma tdiv_1_r x : tdiv x (Fin 1) = x.
Proof.
  destruct x; simpl; rewrite ?(Rsign_pos 1) by lra; [|done..]. f_equal. lra.
Qed.

(** C7: the negative mean log-likelihood of the one-word list [[w]] is the
    negation of the log-likelihood of [w]; when the latter raises, so does
    the former, with the same exception. *)
Theorem calculate_neg_mean_log_likelihood_single
    (w : string) (t : list (list tval)) (d : gmap string Z)
    (start_token end_token : string) :
  calculate_neg_mean_log_likelihood [w] t d start_token end_token
  = tneg <$> calculate_log_likelihood w t d start_token end_token.
Proof.
  unfold calculate_neg_mean_log_likelihood. cbn [total_loop length].
  destruct (calculate_log_likelihood w t d start_token end_token) as [v|e];
    [|done].
  rewrite !bind_Ok, tadd_0_l. unfold py_truediv.
  change (Z.of_nat 1) with 1%Z. cbn [Z.eqb Pos.eqb].
  by rewrite tdiv_1_r.
Qed.

(** *** The sign of a log-likelihood *)

Lemma tle_tadd_nonpos x y :
  tle x (Fin 0) → tle y (Fin 0) → tle (tadd x y) (Fin 0).
Proof. destruct x, y; simpl; try done. lra. Qed.

Lemma ln_nonpos r : 0 < r <= 1 → ln r <= 0.
Proof.
  intros [Hpos [Hlt| ->]]; [|rewrite ln_1; lra].
  rewrite <- ln_1. left. by apply ln_increasing.
Qed.

Lemma tlog_probability p : probability p → tle (tlog p) (Fin 0).
Proof.
  intros (r & -> & Hr). simpl.
  destruct (Rsign_case r) as [[? ->]|[[? ->]|[? ->]]]; simpl; [lra|done|].
  apply ln_nonpos. lra.
Qed.

Lemma bigram_loop_nonpos t d acc prev rest v :
  probability_matrix t → tle acc (Fin 0) →
  bigram_loop t d acc prev rest = Ok v → tle v (Fin 0).
Proof.
  intros Ht. revert acc prev.
  induction rest as [|c rest IH]; intros acc prev Hacc; cbn [bigram_loop].
  - by intros [= <-].
  - destruct (char_to_index_get d (char prev)) as [j|]; [|done].
    destruct (char_to_index_get d (char c)) as [k|]; [|done].
    rewrite !bind_Ok.
    destruct (tensor_get2 t j k) as [p|] eqn:Hp; [|done]. rewrite bind_Ok.
    apply IH. apply tle_tadd_nonpos; [done|].
    eapply tlog_probability, tensor_get2_probability; done.
Qed.

Lemma bigram_loop_returns t d acc prev rest :
  vocabulary_fits d t →
  Forall (λ c, is_Some (d !! char c)) (prev :: rest) →
  ∃ v, bigram_loop t d acc prev rest = Ok v.
Proof.
  intros Hfits. revert acc prev.
  induction rest as [|c rest IH]; intros acc prev Hall; cbn [bigram_loop].
  - by eexists.
  - apply Forall_cons in Hall as [[j Hj] Hall].
    pose proof Hall as Hall'. apply Forall_cons in Hall' as [[k Hk] _].
    rewrite (char_to_index_get_Some _ _ _ Hj), bind_Ok.
    rewrite (char_to_index_get_Some _ _ _ Hk), bind_Ok.
    destruct (Hfits _ _ _ _ Hj Hk) as [p ->]. rewrite bind_Ok. by apply IH.
Qed.

(** C6: under a matrix whose entries all lie in [[0, 1]], every value
    [calculate_log_likelihood] returns is [<= 0] (it is [-inf] when a
    probability met is zero); and it does return one when every character
    of the processed word is in the vocabulary and the indices of the
    vocabulary are in the matrix. *)
Theorem calculate_log_likelihood_nonpositive
    (word : string) (t : list (list tval)) (d : gmap string Z)
    (start_token end_token : string) :
  probability_matrix t →
  (∀ v, calculate_log_likelihood word t d start_token end_token = Ok v →
        tle v (Fin 0))
  ∧ (vocabulary_fits d t →
     spelled d (processed_word word start_token end_token) →
     ∃ v, calculate_log_likelihood word t d start_token end_token = Ok v
          ∧ tle v (Fin 0)).
Proof.
  intros Ht.
  assert (∀ v, calculate_log_likelihood word t d start_token end_token = Ok v →
               tle v (Fin 0)) as Hsign.
  { intros v. unfold calculate_log_likelihood.
    destruct (list_ascii_of_string _) as [|c rest].
    - intros [= <-]. simpl. lra.
    - apply bigram_loop_nonpos; [done|]. simpl. lra. }
  split; [done|]. intros Hfits Hsp.
  assert (∃ v, calculate_log_likelihood word t d start_token end_token = Ok v)
    as [v Hv]; [|by eauto].
  unfold calculate_log_likelihood, spelled in *.
  destruct (list_ascii_of_string _) as [|c rest]; [by eexists|].
  by apply bigram_loop_returns.
Qed.

Lemma worked_probabilities_valid : probability_matrix worked_probabilities.
Proof. repeat constructor; eexists; (split; [reflexivity|lra]). Qed.

Lemma short_vocabulary_fits t :
  length t = 4%nat → Forall (λ row, length row = 4%nat) t →
  vocabulary_fits short_vocabulary t.
Proof.
  intros Hrows Hcols a b j k Ha Hb.
  assert (map_Forall (λ _ i, (0 <= i < 4)%Z) short_vocabulary) as Hdom.
  { apply (bool_decide_unpack _). vm_compute. reflexivity. }
  pose proof (Hdom _ _ Ha) as Hj. pose proof (Hdom _ _ Hb) as Hk.
  simpl in Hj, Hk. clear Ha Hb Hdom.
  unfold tensor_get2, tensor_get. rewrite Hrows.
  destruct (Z.ltb_spec j 0); [lia|].
  destruct (Z.leb_spec 0 j); [|lia]. destruct (Z.ltb_spec j (Z.of_nat 4)); [|lia].
  simpl andb. cbv iota.
  destruct (lookup_lt_is_Some_2 t (Z.to_nat j)) as [row Hrow]; [lia|].
  rewrite Hrow, bind_Ok.
  assert (length row = 4%nat) as Hrow4.
  { eapply Forall_forall in Hcols; [done|]. by eapply list_elem_of_lookup_2. }
  rewrite Hrow4.
  destruct (Z.ltb_spec k 0); [lia|].
  destruct (Z.leb_spec 0 k); [|lia]. destruct (Z.ltb_spec k (Z.of_nat 4)); [|lia].
  simpl andb. cbv iota.
  destruct (lookup_lt_is_Some_2 row (Z.to_nat k)) as [p ->]; [lia|].
  by eexists.
Qed.

Lemma calculate_log_likelihood_nonpositive_witness :
  ∃ v, calculate_log_likelihood "a" worked_probabilities short_vocabulary
         "^" "$" = Ok v
       ∧ tle v (Fin 0).
Proof.
  apply (calculate_log_likelihood_nonpositive "a" worked_probabilities
           short_vocabulary "^" "$").
  - apply worked_probabilities_valid.
  - apply short_vocabulary_fits; [reflexivity|]. by repeat constructor.
  - unfold spelled. simpl.
    repeat constructor; eexists; vm_compute; reflexivity.
Defined.

(** *** The logarithm of 2 *)

Lemma ln_le_sub1 x : 0 < x → ln x <= x - 1.
Proof.
  intros Hx. destruct (Rle_or_lt (ln x) (x - 1)) as [|Hlt]; [done|].
  apply exp_increasing in Hlt. rewrite exp_ln in Hlt by done.
  pose proof (exp_ineq1_le (x - 1)). lra.
Qed.

Lemma ln_ge_sub1 x : 0 < x → 1 - / x <= ln x.
Proof.
  intros Hx. pose proof (Rinv_0_lt_compat x Hx) as Hinv.
  pose proof (ln_le_sub1 (/ x) Hinv) as H. rewrite ln_Rinv in H by done. lra.
Qed.

Lemma ln_monotone x y : 0 < x → x <= y → ln x <= ln y.
Proof.
  intros Hx [Hlt| ->]; [|lra]. left. by apply ln_increasing.
Qed.

Lemma ln_square c : 0 < c → ln (c * c) = 2 * ln c.
Proof. intros Hc. rewrite ln_mult by done. lra. Qed.

Lemma last_cons_default {A} (cs : list A) (c b : A) :
  List.last (c :: cs) b = List.last cs c.
Proof.
  revert c b. induction cs as [|a cs IH]; intros c b; [done|].
  change (List.last (c :: a :: cs) b) with (List.last (a :: cs) b).
  by rewrite !IH.
Qed.

Lemma root_chain_above_ln cs b :
  0 < b → root_chain_above b cs →
  ln b <= 2 ^ length cs * ln (List.last cs b).
Proof.
  revert b. induction cs as [|c cs IH]; intros b Hb; cbn [root_chain_above].
  - intros _. simpl. lra.
  - intros (Hc & Hbc & Hcs). specialize (IH c Hc Hcs).
    pose proof (ln_monotone b (c * c) Hb Hbc) as Hln.
    rewrite ln_square in Hln by done.
    rewrite last_cons_default. cbn [length pow]. lra.
Qed.

Lemma root_chain_below_ln cs b :
  0 < b → root_chain_below b cs →
  2 ^ length cs * ln (List.last cs b) <= ln b.
Proof.
  revert b. induction cs as [|c cs IH]; intros b Hb; cbn [root_chain_below].
  - intros _. simpl. lra.
  - intros (Hc & Hbc & Hcs). specialize (IH c Hc Hcs).
    assert (0 < c * c) as Hcc by (by apply Rmult_lt_0_compat).
    pose proof (ln_monotone (c * c) b Hcc Hbc) as Hln.
    rewrite ln_square in Hln by done.
    rewrite last_cons_default. cbn [length pow]. lra.
Qed.

Lemma ln_2_upper : ln 2 < 6931475 / 10000000.
Proof.
  pose proof (root_chain_above_ln roots_above 2) as H.
  unfold roots_above in H. cbn [root_chain_above length List.last] in H.
  match type of H with _ → _ → _ <= _ * ln ?c =>
    pose proof (ln_le_sub1 c) as Hc
  end.
  assert (0 < 2) as H2 by lra. specialize (H H2).
  lapply H; [|repeat split; lra]. lapply Hc; [|lra]. clear. intros. lra.
Qed.

Lemma ln_2_lower : 693147 / 1000000 < ln 2.
Proof.
  pose proof (root_chain_below_ln roots_below 2) as H.
  unfold roots_below in H. cbn [root_chain_below length List.last] in H.
  match type of H with _ → _ → _ * ln ?c <= _ =>
    pose proof (ln_ge_sub1 c) as Hc
  end.
  assert (0 < 2) as H2 by lra. specialize (H H2).
  lapply H; [|repeat split; lra]. lapply Hc; [|lra]. clear. intros. lra.
Qed.

(** *** The worked example *)

Lemma ln_half_twice :
  -1386295 / 1000000 < ln (1 / 2) + ln (1 / 2) < -1386294 / 1000000.
Proof.
  replace (1 / 2) with (/ 2) by lra. rewrite ln_Rinv by lra.
  pose proof ln_2_upper. pose proof ln_2_lower. lra.
Qed.

Lemma tlog_pos r : 0 < r → tlog (Fin r) = Fin (ln r).
Proof. intros Hr. simpl. by rewrite Rsign_pos. Qed.

(** C8, as the code has it: a count row [0, 0, 3, 1] with smoothing 1 is
    normalised to [1/8, 1/8, 4/8, 2/8]; and when the start and end tokens
    are single characters, with P(start -> a) = 0.5 and P(a -> end) = 0.5,
    the log-likelihood of "a" is log 0.5 + log 0.5 = -1.386294... *)
Theorem worked_example
    (counts : list (list tval)) (i : nat) (cs ce : ascii)
    (d : gmap string Z) (t : list (list tval)) (js ja je : Z) :
  counts !! i = Some [Fin 0; Fin 0; Fin 3; Fin 1] →
  d !! char cs = Some js → d !! "a" = Some ja → d !! char ce = Some je →
  tensor_get2 t js ja = Ok (Fin (1 / 2)) →
  tensor_get2 t ja je = Ok (Fin (1 / 2)) →
  bigrams_count_to_probabilities counts 1 !! i
  = Some [Fin (1 / 8); Fin (1 / 8); Fin (4 / 8); Fin (2 / 8)]
  ∧ ∃ v, calculate_log_likelihood "a" t d (char cs) (char ce) = Ok (Fin v)
         ∧ v = ln (1 / 2) + ln (1 / 2)
         ∧ -1386295 / 1000000 < v < -1386294 / 1000000.
Proof.
  intros Hrow Hs Ha He Hsa Hae. split.
  - rewrite bigrams_count_to_probabilities_rows. unfold smoothed_bigram_counts.
    rewrite !lookup_map, Hrow. cbn. eval_Rsign. repeat f_equal; lra.
  - exists (ln (1 / 2) + ln (1 / 2)). split; [|split; [done|apply ln_half_twice]].
    unfold calculate_log_likelihood. cbn [processed_word lower].
    change (list_ascii_of_string _) with [cs; "a"%char; ce].
    cbn [bigram_loop]. change (char "a") with "a".
    rewrite (char_to_index_get_Some _ _ _ Hs), (char_to_index_get_Some _ _ _ Ha),
      (char_to_index_get_Some _ _ _ He), !bind_Ok, Hsa, !bind_Ok, Hae, !bind_Ok.
    rewrite !tlog_pos by lra. cbn [tadd]. do 2 f_equal. lra.
Qed.

Lemma worked_example_witness :
  bigrams_count_to_probabilities [[Fin 0; Fin 0; Fin 3; Fin 1]] 1 !! 0%nat
  = Some [Fin (1 / 8); Fin (1 / 8); Fin (4 / 8); Fin (2 / 8)]
  ∧ ∃ v, calculate_log_likelihood "a" worked_probabilities short_vocabulary
           "^" "$" = Ok (Fin v)
         ∧ v = ln (1 / 2) + ln (1 / 2)
         ∧ -1386295 / 1000000 < v < -1386294 / 1000000.
Proof.
  apply (worked_example [[Fin 0; Fin 0; Fin 3; Fin 1]] 0 "^" "$"
           short_vocabulary worked_probabilities 0 2 1);
    first [reflexivity | vm_compute; reflexivity].
Defined.

(** C8, as the claim states it, fails: over the alphabet {<S>, <E>, a, b}
    with the tokens "<S>" and "<E>", the matrix has P(<S> -> a) = 0.5 and
    P(a -> <E>) = 0.5, and the call raises the [KeyError] of "<". *)
Lemma default_tokens_raise_KeyError :
  tensor_get2 worked_probabilities 0 2 = Ok (Fin (1 / 2))
  ∧ tensor_get2 worked_probabilities 2 1 = Ok (Fin (1 / 2))
  ∧ calculate_log_likelihood "a" worked_probabilities worked_vocabulary
      "<S>" "<E>"
    = Raise (KeyError "<").
Proof.
  split; [reflexivity|]. split; [reflexivity|].
  unfold calculate_log_likelihood. cbn. by eval_dict.
Qed.

(** *** Tokens of several characters *)

Lemma bigram_loop_symbol_walk t d acc c rest :
  bigram_loop t d acc c rest = symbol_walk t d acc (char c) (map char rest).
Proof.
  revert acc c. induction rest as [|c' rest IH]; intros acc c; [done|].
  cbn [bigram_loop symbol_walk map].
  destruct (char_to_index_get d (char c)) as [j|]; [|done].
  destruct (char_to_index_get d (char c')) as [k|]; [|done].
  rewrite !bind_Ok. destruct (tensor_get2 t j k) as [p|]; [|done].
  rewrite !bind_Ok. apply IH.
Qed.

(** C10: [calculate_log_likelihood] walks the characters of the
    concatenation [start_token + word.lower() + end_token], each character
    being looked up as a symbol of its own.  It is the walk over symbols
    with one symbol per token when both tokens are single characters; a
    start token of two characters or more has its first character looked
    up alone, and the call raises [KeyError] when that character is no
    key; with the tokens "<S>" and "<E>" it looks up "<", whether or not
    "<S>" is a key: on the worked example the walk over symbols returns
    log 0.5 + log 0.5 and the code raises. *)
Theorem calculate_log_likelihood_walks_characters
    (word : string) (t : list (list tval)) (d : gmap string Z)
    (start_token end_token : string) :
  calculate_log_likelihood word t d start_token end_token
  = match symbols (processed_word word start_token end_token) with
    | [] => Ok (Fin 0)
    | sym :: rest => symbol_walk t d (Fin 0) sym rest
    end
  ∧ (∀ cs ce : ascii,
       calculate_log_likelihood word t d (char cs) (char ce)
       = score_word_by_symbols word t d (char cs) (char ce))
  ∧ (∀ (c1 c2 : ascii) (s : string),
       d !! char c1 = None →
       calculate_log_likelihood word t d (String c1 (String c2 s)) end_token
       = Raise (KeyError (char c1)))
  ∧ (d !! "<" = None →
     calculate_log_likelihood word t d default_start_token default_end_token
     = Raise (KeyError "<"))
  ∧ (score_word_by_symbols "a" worked_probabilities worked_vocabulary
       default_start_token default_end_token
     = Ok (Fin (0 + ln (1 / 2) + ln (1 / 2)))
     ∧ calculate_log_likelihood "a" worked_probabilities worked_vocabulary
         default_start_token default_end_token
       = Raise (KeyError "<")).
Proof.
  split; [|split; [|split; [|split]]].
  - unfold calculate_log_likelihood, symbols.
    destruct (list_ascii_of_string _) as [|c rest]; [done|].
    apply bigram_loop_symbol_walk.
  - intros cs ce. unfold calculate_log_likelihood, score_word_by_symbols, symbols.
    rewrite processed_word_chars. cbn [list_ascii_of_string char app].
    by rewrite bigram_loop_symbol_walk, map_app.
  - intros c1 c2 s Hc1. unfold calculate_log_likelihood.
    rewrite processed_word_chars. cbn [list_ascii_of_string app bigram_loop].
    by rewrite (char_to_index_get_None _ _ Hc1).
  - intros Hlt. unfold calculate_log_likelihood.
    rewrite processed_word_chars. cbn [list_ascii_of_string default_start_token app].
    cbn [bigram_loop]. change (char "<") with "<".
    by rewrite (char_to_index_get_None _ _ Hlt).
  - split.
    + unfold score_word_by_symbols.
      change (symbols (lower "a") ++ [default_end_token]) with ["a"; "<E>"].
      cbn [symbol_walk default_start_token]. eval_dict.
      change (tensor_get2 worked_probabilities 0 2) with (@Ok tval (Fin (1 / 2))).
      rewrite !bind_Ok.
      change (tensor_get2 worked_probabilities 2 1) with (@Ok tval (Fin (1 / 2))).
      rewrite !bind_Ok, !tlog_pos by lra. reflexivity.
    + unfold calculate_log_likelihood. cbn. by eval_dict.
Qed.

Lemma calculate_log_likelihood_walks_characters_witness :
  calculate_log_likelihood "ab" worked_probabilities worked_vocabulary
    default_start_token default_end_token
  = Raise (KeyError "<").
Proof.
  apply (proj1 (proj2 (proj2 (proj2
           (calculate_log_likelihood_walks_characters "ab" worked_probabilities
              worked_vocabulary default_start_token default_end_token))))).
  vm_compute. reflexivity.
Defined.

(** ** The sampler and the generator *)

Lemma append_empty_r (s : string) : s +:+ EmptyString = s.
Proof.
  induction s as [|c s IH]; [done|].
  change (String c (s +:+ EmptyString) = String c s). by rewrite IH.
Qed.

Lemma append_assoc (s1 s2 s3 : string) : (s1 +:+ s2) +:+ s3 = s1 +:+ (s2 +:+ s3).
Proof.
  induction s1 as [|c s1 IH]; [done|].
  change (String c ((s1 +:+ s2) +:+ s3) = String c (s1 +:+ (s2 +:+ s3))).
  by rewrite IH.
Qed.

Lemma tensor_get_in_range {A} (t : list A) (i : Z) :
  in_range t i → ∃ x, tensor_get t i = Ok x.
Proof.
  unfold in_range, tensor_get. intros Hi.
  destruct (Z.ltb_spec i 0).
  - destruct (Z.leb_spec 0 (i + Z.of_nat (length t))); [|lia].
    destruct (Z.ltb_spec (i + Z.of_nat (length t)) (Z.of_nat (length t))); [|lia].
    simpl.
    destruct (lookup_lt_is_Some_2 t (Z.to_nat (i + Z.of_nat (length t))))
      as [x ->]; [lia|]. by eexists.
  - destruct (Z.leb_spec 0 i); [|lia].
    destruct (Z.ltb_spec i (Z.of_nat (length t))); [|lia]. simpl.
    destruct (lookup_lt_is_Some_2 t (Z.to_nat i)) as [x ->]; [lia|]. by eexists.
Qed.

Lemma tensor_get_out_of_range {A} (t : list A) (i : Z) :
  ¬ in_range t i → tensor_get t i = Raise IndexError.
Proof.
  unfold in_range, tensor_get. intros Hi.
  destruct (Z.ltb_spec i 0).
  - destruct (Z.leb_spec 0 (i + Z.of_nat (length t))); [lia|]. done.
  - destruct (Z.leb_spec 0 i); [|lia].
    destruct (Z.ltb_spec i (Z.of_nat (length t))); [lia|]. done.
Qed.

Lemma fmap_Ok {A B} (f : A → B) (a : A) : f <$> Ok a = Ok (f a).
Proof. reflexivity. Qed.

Lemma join_cons (sym : string) (syms : list string) :
  join (sym :: syms) = sym +:+ join syms.
Proof. reflexivity. Qed.

Lemma join_nil : join [] = EmptyString.
Proof. reflexivity. Qed.

Section GenerationProperties.
Context {G : Type}.
Variable multinomial : list tval → G → result (Z * G).
Variables (end_token : string) (d : gmap string Z) (i2c : gmap Z string)
  (t : list (list tval)).

Local Notation "'loop'" := (generate_loop multinomial end_token d i2c t).
Local Notation "'appended'" :=
  (appended_symbols multinomial end_token d i2c t).
Local Notation "'sample'" := (sample_next_character multinomial).

(** The name built is the name so far followed by the appended symbols. *)
Lemma generate_loop_appended n cur name g :
  loop n cur name g
  = (λ r, (name +:+ join r.1, r.2)) <$> appended n cur g.
Proof.
  revert cur name g. induction n as [|n IH]; intros cur name g;
    cbn [generate_loop appended_symbols].
  - rewrite fmap_Ok. cbn [fst snd]. by rewrite join_nil, append_empty_r.
  - destruct (char_to_index_get d cur) as [idx|]; [|done]. rewrite !bind_Ok.
    destruct (sample idx t i2c g) as [[c g1]|]; [|done]. rewrite !bind_Ok.
    cbn beta iota. case_decide.
    + rewrite fmap_Ok. cbn [fst snd]. by rewrite join_nil, append_empty_r.
    + rewrite IH. destruct (appended n c g1) as [[syms g2]|]; [|done].
      rewrite bind_Ok, !fmap_Ok. cbn [fst snd].
      by rewrite join_cons, append_assoc.
Qed.

Lemma appended_symbols_bounded n cur g syms g' :
  appended n cur g = Ok (syms, g') →
  (length syms <= n)%nat ∧ Forall (λ s, s ≠ end_token) syms.
Proof.
  revert cur g syms g'. induction n as [|n IH]; intros cur g syms g';
    cbn [appended_symbols].
  - intros [= <- <-]. split; [done|constructor].
  - destruct (char_to_index_get d cur) as [idx|]; [|done]. rewrite bind_Ok.
    destruct (sample idx t i2c g) as [[c g1]|]; [|done]. rewrite bind_Ok.
    cbn beta iota. case_decide.
    + intros [= <- <-]. split; [simpl; lia|constructor].
    + destruct (appended n c g1) as [[syms' g2]|] eqn:Hrec; [|done].
      rewrite bind_Ok. cbn beta iota. intros [= <- <-].
      destruct (IH _ _ _ _ Hrec) as [Hlen Hall].
      split; [simpl; lia|by constructor].
Qed.

(** After [k] iterations that appended [k] symbols the loop is in the
    state these symbols lead to. *)
Lemma generate_loop_prefix k m cur name g syms g_k :
  appended k cur g = Ok (syms, g_k) → length syms = k →
  loop (k + m) cur name g
  = loop m (List.last syms cur) (name +:+ join syms) g_k.
Proof.
  revert cur name g syms. induction k as [|k IH]; intros cur name g syms;
    cbn [appended_symbols].
  - intros [= <- <-] _. cbn [Nat.add List.last].
    by rewrite join_nil, append_empty_r.
  - destruct (char_to_index_get d cur) as [idx|] eqn:Hidx; [|done].
    rewrite bind_Ok.
    destruct (sample idx t i2c g) as [[c g1]|] eqn:Hs; [|done].
    rewrite bind_Ok. cbn beta iota. case_decide as Hend.
    + intros [= <- <-]. done.
    + destruct (appended k c g1) as [[syms' g2]|] eqn:Hrec; [|done].
      rewrite bind_Ok. cbn beta iota. intros [= <- <-] [= Hlen].
      cbn [Nat.add generate_loop]. rewrite Hidx, bind_Ok, Hs, bind_Ok.
      cbn beta iota. rewrite decide_False by done.
      rewrite (IH _ _ _ _ Hrec Hlen), last_cons_default.
      by rewrite join_cons, append_assoc.
Qed.

Lemma generate_loop_break n cur name g idx g' :
  d !! cur = Some idx → sample idx t i2c g = Ok (end_token, g') →
  loop (S n) cur name g = Ok (name, g').
Proof.
  intros Hidx Hs. cbn [generate_loop].
  rewrite (char_to_index_get_Some _ _ _ Hidx), bind_Ok, Hs, bind_Ok.
  cbn beta iota. by rewrite decide_True.
Qed.

Lemma generate_loop_returns (good : string → Prop) n cur name g :
  (∀ c g, good c → ∃ idx c' g',
     d !! c = Some idx ∧ sample idx t i2c g = Ok (c', g') ∧ good c') →
  good cur → ∃ name' g', loop n cur name g = Ok (name', g').
Proof.
  intros Hstep. revert cur name g. induction n as [|n IH]; intros cur name g Hc;
    cbn [generate_loop]; [by eauto|].
  destruct (Hstep cur g Hc) as (idx & c' & g' & Hidx & Hs & Hc').
  rewrite (char_to_index_get_Some _ _ _ Hidx), bind_Ok, Hs, bind_Ok.
  cbn beta iota. case_decide; [by eauto|]. by apply IH.
Qed.
End GenerationProperties.

(** C5, as the code has it: for a maximum length [L >= 0], a name
    [generate_name] returns is the concatenation of at most [L] sampled
    symbols, none of which is the end token; as soon as the end token is
    sampled, after [k < L] symbols, the call returns these [k] symbols; and
    the call does return when every symbol that can be sampled is a key of
    [char_to_idx] whose row can be sampled.  Nothing keeps the start token
    out of the name: it is appended like any other symbol. *)
Theorem generate_name_bounded {G : Type}
    (multinomial : list tval → G → result (Z * G))
    (start_token end_token : string) (d : gmap string Z) (i2c : gmap Z string)
    (t : list (list tval)) (L : Z) (g : G) :
  (0 <= L)%Z →
  (∀ name g',
     generate_name multinomial start_token end_token d i2c t L g
     = Ok (name, g') →
     ∃ syms,
       appended_symbols multinomial end_token d i2c t (Z.to_nat L)
         start_token g = Ok (syms, g')
       ∧ name = join syms
       ∧ (Z.of_nat (length syms) <= L)%Z
       ∧ Forall (λ sym, sym ≠ end_token) syms)
  ∧ (∀ (k : nat) syms g_k idx g',
       (Z.of_nat k < L)%Z →
       appended_symbols multinomial end_token d i2c t k start_token g
       = Ok (syms, g_k) →
       length syms = k →
       d !! List.last syms start_token = Some idx →
       sample_next_character multinomial idx t i2c g_k = Ok (end_token, g') →
       generate_name multinomial start_token end_token d i2c t L g
       = Ok (join syms, g'))
  ∧ (∀ good : string → Prop,
       good start_token →
       (∀ c g0, good c → ∃ idx c' g',
          d !! c = Some idx
          ∧ sample_next_character multinomial idx t i2c g0 = Ok (c', g')
          ∧ good c') →
       ∃ name g',
         generate_name multinomial start_token end_token d i2c t L g
         = Ok (name, g')).
Proof.
  intros HL. unfold generate_name. split; [|split].
  - intros name g'. rewrite generate_loop_appended.
    destruct (appended_symbols _ _ _ _ _ _ _ _) as [[syms g1]|] eqn:Happ; [|done].
    rewrite fmap_Ok. cbn [fst snd]. intros [= <- <-].
    destruct (appended_symbols_bounded _ _ _ _ _ _ _ _ _ _ Happ) as [Hlen Hall].
    exists syms. split; [done|]. split; [done|]. split; [lia|done].
  - intros k syms g_k idx g' Hk Happ Hlen Hidx Hs.
    replace (Z.to_nat L) with (k + S (Z.to_nat L - k - 1))%nat by lia.
    rewrite (generate_loop_prefix _ _ _ _ _ _ _ _ _ _ _ _ Happ Hlen).
    by rewrite (generate_loop_break _ _ _ _ _ _ _ _ _ _ _ Hidx Hs).
  - intros good Hstart Hstep. by eapply generate_loop_returns.
Qed.

Lemma generate_name_bounded_witness :
  generate_name scripted_multinomial "^" "$" short_vocabulary short_symbols
    uniform_probabilities 5 0%nat
  = Ok ("ab", 3%nat).
Proof.
  apply (proj1 (proj2 (generate_name_bounded scripted_multinomial "^" "$"
                         short_vocabulary short_symbols uniform_probabilities
                         5 0%nat ltac:(lia)))
           2%nat ["a"; "b"] 2%nat 3%Z 3%nat).
  - lia.
  - reflexivity.
  - reflexivity.
  - vm_compute. reflexivity.
  - reflexivity.
Defined.

(** *** The model of [torch.multinomial] *)

Lemma weight_nonneg r : 0 <= r → weight (Fin r) = Some r.
Proof. intros Hr. simpl. by destruct (Rle_dec 0 r). Qed.

Lemma weights_reals rs :
  Forall (λ r, 0 <= r) rs → mapM weight (map Fin rs) = Some rs.
Proof.
  induction 1 as [|r rs Hr _ IH]; [done|].
  cbn [map mapM]. by rewrite (weight_nonneg r Hr), IH.
Qed.

Lemma pick_in_range ws u :
  Forall (λ w, 0 <= w) ws → 0 <= u < Rsum ws →
  (0 <= pick ws u < Z.of_nat (length ws))%Z.
Proof.
  intros Hws. revert u. induction Hws as [|w ws Hw _ IH]; intros u Hu;
    simpl in *; [lra|].
  destruct (Rlt_dec u w); [lia|].
  specialize (IH (u - w)). lapply IH; [lia|lra].
Qed.

Lemma torch_multinomial_weights rs g :
  Forall (λ r, 0 <= r) rs → 0 < Rsum rs →
  torch_multinomial (map Fin rs) g
  = Ok (pick rs (uniform g (drawn g) * Rsum rs), advance g).
Proof.
  intros Hrs Hpos. unfold torch_multinomial. rewrite weights_reals by done.
  fold (Rsum rs). by destruct (Rlt_dec 0 (Rsum rs)).
Qed.

Lemma torch_multinomial_zero_total rs g :
  Forall (λ r, 0 <= r) rs → Rsum rs = 0 →
  torch_multinomial (map Fin rs) g = Raise RuntimeError.
Proof.
  intros Hrs Hzero. unfold torch_multinomial. rewrite weights_reals by done.
  fold (Rsum rs). destruct (Rlt_dec 0 (Rsum rs)); [lra|done].
Qed.

Lemma idx_to_char_get_Some (d : gmap Z string) key c :
  d !! key = Some c → idx_to_char_get d key = Ok c.
Proof. unfold idx_to_char_get. by intros ->. Qed.

(** C9, as the code has it: an index out of range (below [-N] or from [N]
    on) raises [IndexError]; for an index in range the row is handed to
    [torch.multinomial] as it is, and the outcome is that of the draw
    followed by the lookup of the drawn index; no sum is checked: a row of
    non-negative weights is sampled whatever its positive sum, and a row of
    sum zero fails inside [torch.multinomial] with [RuntimeError]. *)
Theorem sample_next_character_errors {G : Type}
    (multinomial : list tval → G → result (Z * G))
    (idx : Z) (t : list (list tval)) (i2c : gmap Z string) (g : G) :
  (¬ in_range t idx →
   sample_next_character multinomial idx t i2c g = Raise IndexError)
  ∧ (in_range t idx →
     ∃ row, tensor_get t idx = Ok row
       ∧ sample_next_character multinomial idx t i2c g
         = '(j, g') ← multinomial row g;
           c ← idx_to_char_get i2c j; Ok (c, g'))
  ∧ (∀ rs (g0 : generator),
       tensor_get t idx = Ok (map Fin rs) →
       Forall (λ r, 0 <= r) rs →
       (0 < Rsum rs →
        0 <= uniform g0 (drawn g0) < 1 →
        (∀ j, (0 <= j < Z.of_nat (length rs))%Z → is_Some (i2c !! j)) →
        ∃ c, sample_next_character torch_multinomial idx t i2c g0
             = Ok (c, advance g0))
       ∧ (Rsum rs = 0 →
          sample_next_character torch_multinomial idx t i2c g0
          = Raise RuntimeError)).
Proof.
  split; [|split].
  - intros Hout. unfold sample_next_character.
    by rewrite (tensor_get_out_of_range _ _ Hout).
  - intros Hin. destruct (tensor_get_in_range _ _ Hin) as [row Hrow].
    exists row. split; [done|]. unfold sample_next_character.
    by rewrite Hrow, bind_Ok.
  - intros rs g0 Hrow Hrs. unfold sample_next_character.
    rewrite Hrow, bind_Ok. split.
    + intros Hpos Hu Hkeys. rewrite torch_multinomial_weights by done.
      rewrite bind_Ok. cbn beta iota.
      destruct (Hkeys (pick rs (uniform g0 (drawn g0) * Rsum rs))) as [c Hc].
      { apply pick_in_range; [done|]. split; [apply Rmult_le_pos; lra|nra]. }
      exists c. by rewrite (idx_to_char_get_Some _ _ _ Hc).
    + intros Hzero. by rewrite torch_multinomial_zero_total.
Qed.

Lemma Rsum_ones : Rsum [1; 1] = 2.
Proof. simpl. lra. Qed.

Lemma sample_next_character_errors_witness :
  ∃ c, sample_next_character torch_multinomial 0 [[Fin 1; Fin 1]]
         short_symbols zero_generator
       = Ok (c, advance zero_generator).
Proof.
  apply (proj1 (proj2 (proj2 (sample_next_character_errors torch_multinomial
                                0 [[Fin 1; Fin 1]] short_symbols
                                zero_generator))
                  [1; 1] zero_generator eq_refl
                  ltac:(repeat constructor; lra))).
  - rewrite Rsum_ones. lra.
  - simpl. lra.
  - intros j Hj. simpl in Hj.
    assert (j = 0 ∨ j = 1)%Z as [-> | ->] by lia; eexists; vm_compute; reflexivity.
Defined.

(** C9, as the claim states it, fails: the row [1, 1] sums to 2 and is
    sampled all the same, and an index out of range raises [IndexError],
    which is no [DomainError]. *)
Lemma unnormalised_row_is_sampled :
  tsum [Fin 1; Fin 1] = Fin 2
  ∧ sample_next_character torch_multinomial 0 [[Fin 1; Fin 1]] short_symbols
      zero_generator
    = Ok ("^", advance zero_generator)
  ∧ sample_next_character torch_multinomial 5 worked_probabilities
      short_symbols zero_generator
    = Raise IndexError
  ∧ ¬ is_DomainError IndexError.
Proof.
  split; [tensor_eq|]. split; [|split].
  - unfold sample_next_character.
    change (tensor_get [[Fin 1; Fin 1]] 0) with (@Ok (list tval) (map Fin [1; 1])).
    rewrite bind_Ok, torch_multinomial_weights;
      [|repeat constructor; lra|rewrite Rsum_ones; lra].
    rewrite bind_Ok. cbn beta iota. rewrite Rsum_ones.
    cbn [pick zero_generator uniform drawn].
    destruct (Rlt_dec (0 * 2) 1); [|lra].
    by rewrite (idx_to_char_get_Some _ _ "^") by (vm_compute; reflexivity).
  - reflexivity.
  - by intros [why Hwhy].
Qed.

Lemma zero_counts_smoothed :
  bigrams_count_to_probabilities
    [ [Fin 0; Fin 0; Fin 0; Fin 0]; [Fin 0; Fin 0; Fin 0; Fin 0];
      [Fin 0; Fin 0; Fin 0; Fin 0]; [Fin 0; Fin 0; Fin 0; Fin 0] ] 1
  = uniform_probabilities.
Proof.
  unfold bigrams_count_to_probabilities, smoothed_bigram_counts, denominator,
    uniform_probabilities.
  cbn. eval_Rsign. repeat f_equal; lra.
Qed.

(** C5, as the claim states it, fails: under the matrix built from empty
    counts with smoothing 1 every symbol has probability 1/4 after the start
    token, the start token included; when the variate is 0 the first draw is
    index 0, and the name returned for a maximum length of 1 is the start
    token itself. *)
Lemma start_token_is_generated :
  generate_name torch_multinomial "<S>" "<E>" worked_vocabulary worked_symbols
    uniform_probabilities 1 zero_generator
  = Ok ("<S>", advance zero_generator).
Proof.
  unfold generate_name. change (Z.to_nat 1) with 1%nat. cbn [generate_loop].
  eval_dict. unfold sample_next_character.
  change (tensor_get uniform_probabilities 0)
    with (@Ok (list tval) (map Fin [1 / 4; 1 / 4; 1 / 4; 1 / 4])).
  assert (Rsum [1 / 4; 1 / 4; 1 / 4; 1 / 4] = 1) as Hsum by (simpl; lra).
  rewrite bind_Ok, torch_multinomial_weights;
    [|repeat constructor; lra|rewrite Hsum; lra].
  rewrite bind_Ok. cbn beta iota. rewrite Hsum.
  cbn [pick zero_generator uniform drawn].
  destruct (Rlt_dec (0 * 1) (1 / 4)); [|lra].
  rewrite (idx_to_char_get_Some _ _ "<S>") by (vm_compute; reflexivity).
  rewrite !bind_Ok. cbn beta iota. by rewrite decide_False.
Qed.


(** * Further properties *)

(** ** The probability builder *)

Lemma Rsum_shift rs s :
  Rsum (map (λ r, r + s) rs) = Rsum rs + INR (length rs) * s.
Proof.
  induction rs as [|r rs IH]; [simpl; lra|].
  cbn [map Rsum foldr length]. fold (Rsum (map (λ r, r + s) rs)).
  fold (Rsum rs). rewrite IH, S_INR. lra.
Qed.

Lemma smoothed_row_closed_form rs s :
  Rsum rs + INR (length rs) * s ≠ 0 →
  normalised (map (λ c, tadd c (Fin s)) (map Fin rs))
  = map Fin (map (λ c, (c + s) / (Rsum rs + INR (length rs) * s)) rs).
Proof.
  intros Hpos. rewrite smoothed_reals, normalised_reals, Rsum_shift.
  - f_equal. by rewrite map_map.
  - by rewrite Rsum_shift.
Qed.

Lemma bigrams_count_to_probabilities_length counts s :
  length (bigrams_count_to_probabilities counts s) = length counts.
Proof.
  rewrite bigrams_count_to_probabilities_rows. unfold smoothed_bigram_counts.
  by rewrite !length_map.
Qed.

(** X1: the matrix returned has the shape of the count matrix: as many
    rows, and row by row as many entries, whatever the entries are. *)
Theorem bigrams_count_to_probabilities_shape
    (counts : list (list tval)) (s : Z) :
  length (bigrams_count_to_probabilities counts s) = length counts
  ∧ ∀ i row, counts !! i = Some row →
      ∃ out, bigrams_count_to_probabilities counts s !! i = Some out
             ∧ length out = length row.
Proof.
  rewrite bigrams_count_to_probabilities_rows. unfold smoothed_bigram_counts.
  split; [by rewrite !length_map|].
  intros i row Hrow. rewrite !lookup_map, Hrow. eexists. split; [done|].
  unfold normalised. by rewrite !length_map.
Qed.

Lemma exact_closed_form (counts : list (list tval)) (s : Z) (i : nat)
    (rs : list R) :
  counts !! i = Some (map Fin rs) →
  Rsum rs + INR (length rs) * IZR s ≠ 0 →
  bigrams_count_to_probabilities counts s !! i
  = Some (map Fin
            (map (λ c, (c + IZR s) / (Rsum rs + INR (length rs) * IZR s)) rs)).
Proof.
  intros Hrow Hpos. rewrite bigrams_count_to_probabilities_rows.
  unfold smoothed_bigram_counts. rewrite !lookup_map, Hrow.
  cbn [fmap option_fmap option_map].
  f_equal. by apply smoothed_row_closed_form.
Qed.

(** Discharge [exact_on] for a tensor of explicit small counts. *)
Ltac exact_on_tac :=
  split; [lia|]; split;
  [ repeat constructor;
    first [ eexists; split; [reflexivity|lia] | simpl; lia ]
  | repeat constructor; simpl; lra ].

(** X2: additive smoothing in closed form.  Where the arithmetic of the
    dtype is exact, a row of counts [c_1 .. c_n] with smoothing [s] whose
    smoothed total is not zero becomes
    [(c_j + s) / (c_1 + .. + c_n + n * s)], whatever the other rows hold;
    with [s = 0] these are the relative frequencies. *)
Theorem bigrams_count_to_probabilities_closed_form
    (counts : tensor) (s : Z) (i : nat) (rs : list R) :
  exact_on counts s →
  values counts !! i = Some (map Fin rs) →
  Rsum rs + INR (length rs) * IZR s ≠ 0 →
  bigrams_count_to_probabilities_dtype counts s !! i
  = Some (map Fin
            (map (λ c, (c + IZR s) / (Rsum rs + INR (length rs) * IZR s)) rs)).
Proof.
  intros Hexact Hrow Hpos.
  rewrite bigrams_count_to_probabilities_dtype_exact by done.
  by apply exact_closed_form.
Qed.

Lemma bigrams_count_to_probabilities_closed_form_witness :
  bigrams_count_to_probabilities_dtype
    (FloatTensor float32 [map Fin [2; 0; 1; 1]]) 0 !! 0%nat
  = Some (map Fin
            (map (λ c, (c + 0) / (Rsum [2; 0; 1; 1] + INR 4 * 0)) [2; 0; 1; 1])).
Proof.
  apply (bigrams_count_to_probabilities_closed_form
           (FloatTensor float32 [map Fin [2; 0; 1; 1]]) 0 0 [2; 0; 1; 1]).
  - exact_on_tac.
  - reflexivity.
  - simpl. lra.
Defined.

Lemma lookup_map_Some {A B} (f : A → B) (l : list A) (i : nat) (y : B) :
  map f l !! i = Some y → ∃ x, l !! i = Some x ∧ y = f x.
Proof.
  rewrite lookup_map. destruct (l !! i) as [x|]; [|done].
  intros [= <-]. by exists x.
Qed.

Lemma smoothed_row_positive rs s :
  0 < s → Forall (λ r, 0 <= r) rs →
  Forall positive_probability
    (normalised (map (λ c, tadd c (Fin s)) (map Fin rs))).
Proof.
  intros Hs Hrs. destruct rs as [|r0 rs0] eqn:Hshape; [constructor|].
  rewrite <- Hshape in *.
  assert (1 <= INR (length rs)) as Hn.
  { subst rs. cbn [length]. rewrite S_INR. pose proof (pos_INR (length rs0)). lra. }
  pose proof (Rsum_nonneg rs Hrs) as Hsum.
  assert (0 < Rsum rs + INR (length rs) * s) as Hpos by nra.
  rewrite smoothed_row_closed_form by lra.
  apply Forall_map, Forall_map, Forall_forall. intros c Hc.
  pose proof (Rsum_upper rs c Hrs Hc) as Hle.
  assert (0 <= c) as Hc0 by (by eapply Forall_forall in Hrs).
  eexists. split; [reflexivity|].
  pose proof (Rinv_0_lt_compat _ Hpos) as Hinv. unfold Rdiv. split.
  - apply Rmult_lt_0_compat; lra.
  - replace 1 with ((Rsum rs + INR (length rs) * s)
                    * / (Rsum rs + INR (length rs) * s)) by (field; lra).
    apply Rmult_le_compat_r; [lra|nra].
Qed.

Lemma smoothed_matrix_positive counts s :
  (0 < s)%Z → Forall (Forall count_entry) counts →
  Forall (Forall positive_probability) (bigrams_count_to_probabilities counts s).
Proof.
  intros Hs Hcounts. rewrite bigrams_count_to_probabilities_rows.
  unfold smoothed_bigram_counts. apply Forall_map, Forall_map.
  eapply Forall_impl; [exact Hcounts|]. intros row Hrow. cbn beta.
  destruct (count_entries_reals row Hrow) as (rs & -> & Hrs).
  apply smoothed_row_positive; [|done]. by apply IZR_lt in Hs.
Qed.

(** X3: with a smoothing constant [s > 0], where the arithmetic of the
    dtype is exact on the counts, every entry of the matrix returned is a
    finite number of [(0, 1]]: no bigram has probability zero and no row is
    NaN, even a row of zero counts. *)
Theorem smoothing_leaves_no_zero (counts : tensor) (s : Z) :
  exact_on counts s →
  (0 < s)%Z →
  Forall (Forall positive_probability)
    (bigrams_count_to_probabilities_dtype counts s).
Proof.
  intros Hexact Hs. rewrite bigrams_count_to_probabilities_dtype_exact by done.
  apply smoothed_matrix_positive; [done|]. by eapply exact_on_count_entries.
Qed.

Lemma smoothing_leaves_no_zero_witness :
  Forall (Forall positive_probability)
    (bigrams_count_to_probabilities_dtype
       (IntTensor int64 [[0; 0]; [1; 1]]%Z) 1).
Proof.
  apply (smoothing_leaves_no_zero (IntTensor int64 [[0; 0]; [1; 1]]%Z) 1).
  - exact_on_tac.
  - lia.
Defined.

Lemma exact_monotone (counts : list (list tval)) (s : Z) (i a b : nat)
    (rs : list R) (x y : R) :
  counts !! i = Some (map Fin rs) →
  0 < Rsum rs + INR (length rs) * IZR s →
  rs !! a = Some x → rs !! b = Some y → x <= y →
  ∃ out p q,
    bigrams_count_to_probabilities counts s !! i = Some out
    ∧ out !! a = Some (Fin p) ∧ out !! b = Some (Fin q) ∧ p <= q.
Proof.
  intros Hrow Hpos Ha Hb Hxy. rewrite bigrams_count_to_probabilities_rows.
  unfold smoothed_bigram_counts. rewrite !lookup_map, Hrow.
  cbn [fmap option_fmap option_map].
  rewrite smoothed_row_closed_form by lra.
  eexists _, _, _. split; [reflexivity|].
  rewrite !lookup_map, Ha, Hb. cbn [fmap option_fmap option_map].
  split; [reflexivity|]. split; [reflexivity|].
  pose proof (Rinv_0_lt_compat _ Hpos) as Hinv. unfold Rdiv.
  apply Rmult_le_compat_r; lra.
Qed.

(** X4: within a row the order of the counts is kept: where the arithmetic
    of the dtype is exact and the smoothed total of the row is positive, a
    count that is not larger than another gets a probability that is not
    larger. *)
Theorem bigrams_count_to_probabilities_monotone
    (counts : tensor) (s : Z) (i a b : nat) (rs : list R) (x y : R) :
  exact_on counts s →
  values counts !! i = Some (map Fin rs) →
  0 < Rsum rs + INR (length rs) * IZR s →
  rs !! a = Some x → rs !! b = Some y → x <= y →
  ∃ out p q,
    bigrams_count_to_probabilities_dtype counts s !! i = Some out
    ∧ out !! a = Some (Fin p) ∧ out !! b = Some (Fin q) ∧ p <= q.
Proof.
  intros Hexact Hrow Hpos Ha Hb Hxy.
  rewrite bigrams_count_to_probabilities_dtype_exact by done.
  by eapply exact_monotone.
Qed.

Lemma bigrams_count_to_probabilities_monotone_witness :
  ∃ out p q,
    bigrams_count_to_probabilities_dtype
      (FloatTensor float32 [map Fin [0; 0; 3; 1]]) 1 !! 0%nat = Some out
    ∧ out !! 3%nat = Some (Fin p) ∧ out !! 2%nat = Some (Fin q) ∧ p <= q.
Proof.
  apply (bigrams_count_to_probabilities_monotone
           (FloatTensor float32 [map Fin [0; 0; 3; 1]]) 1 0 3 2
           [0; 0; 3; 1] 1 3).
  - exact_on_tac.
  - reflexivity.
  - simpl. lra.
  - reflexivity.
  - reflexivity.
  - lra.
Defined.

(** ** The scorer *)

Lemma lower_char_idempotent c : lower_char (lower_char c) = lower_char c.
Proof. destruct c as [[] [] [] [] [] [] [] []]; reflexivity. Qed.

Lemma lower_idempotent s : lower (lower s) = lower s.
Proof.
  induction s as [|c s IH]; [done|].
  cbn [lower]. by rewrite lower_char_idempotent, IH.
Qed.

(** X5: the word is scored without regard to case: a word and its
    lower-cased form get the same result, value or exception. *)
Theorem calculate_log_likelihood_case_insensitive
    (word : string) (t : list (list tval)) (d : gmap string Z)
    (start_token end_token : string) :
  calculate_log_likelihood (lower word) t d start_token end_token
  = calculate_log_likelihood word t d start_token end_token.
Proof.
  unfold calculate_log_likelihood, processed_word. by rewrite lower_idempotent.
Qed.

Lemma bigram_loop_first_missing t d c post pre prev rest acc :
  vocabulary_fits d t →
  prev :: rest = pre ++ c :: post → rest ≠ [] →
  Forall (λ a, is_Some (d !! char a)) pre →
  d !! char c = None →
  bigram_loop t d acc prev rest = Raise (KeyError (char c)).
Proof.
  intros Hfits. revert prev rest acc.
  induction pre as [|p pre IH]; intros prev rest acc Hsplit Hne Hpre Hc.
  - injection Hsplit as -> ->. destruct post as [|c1 post]; [done|].
    cbn [bigram_loop]. by rewrite (char_to_index_get_None _ _ Hc).
  - injection Hsplit as -> ->. apply Forall_cons in Hpre as [[j Hj] Hpre].
    destruct pre as [|c1 pre].
    + cbn [app bigram_loop].
      rewrite (char_to_index_get_Some _ _ _ Hj), bind_Ok.
      by rewrite (char_to_index_get_None _ _ Hc).
    + cbn [app bigram_loop].
      pose proof Hpre as Hpre'. apply Forall_cons in Hpre' as [[k Hk] _].
      rewrite (char_to_index_get_Some _ _ _ Hj), bind_Ok.
      rewrite (char_to_index_get_Some _ _ _ Hk), bind_Ok.
      destruct (Hfits _ _ _ _ Hj Hk) as [q ->]. rewrite bind_Ok.
      apply IH; [done| |done|done]. by destruct pre.
Qed.

(** X6: when the indices of the vocabulary are in the matrix, the
    [KeyError] raised is that of the first character of the processed word
    that is no key, provided the processed word has two characters or
    more. *)
Theorem calculate_log_likelihood_first_missing
    (word : string) (t : list (list tval)) (d : gmap string Z)
    (start_token end_token : string) (pre post : list ascii) (c : ascii) :
  vocabulary_fits d t →
  list_ascii_of_string (processed_word word start_token end_token)
  = pre ++ c :: post →
  (2 <= length (pre ++ c :: post))%nat →
  Forall (λ a, is_Some (d !! char a)) pre →
  d !! char c = None →
  calculate_log_likelihood word t d start_token end_token
  = Raise (KeyError (char c)).
Proof.
  intros Hfits Hchars Hlen Hpre Hc. unfold calculate_log_likelihood.
  rewrite Hchars.
  destruct (pre ++ c :: post) as [|prev rest] eqn:Hsplit; [by destruct pre|].
  eapply bigram_loop_first_missing; [done|done| |done|done].
  intros ->. simpl in Hlen. lia.
Qed.

Lemma calculate_log_likelihood_first_missing_witness :
  calculate_log_likelihood "axb" worked_probabilities short_vocabulary "^" "$"
  = Raise (KeyError "x").
Proof.
  apply (calculate_log_likelihood_first_missing "axb" worked_probabilities
           short_vocabulary "^" "$" ["^"; "a"]%char ["b"; "$"]%char "x"%char).
  - apply short_vocabulary_fits; [reflexivity|]. by repeat constructor.
  - reflexivity.
  - simpl. lia.
  - repeat constructor; eexists; vm_compute; reflexivity.
  - vm_compute. reflexivity.
Defined.

Lemma bigram_loop_raises t d acc prev rest e :
  bigram_loop t d acc prev rest = Raise e →
  (∃ c, c ∈ prev :: rest ∧ e = KeyError (char c) ∧ d !! char c = None)
  ∨ (e = IndexError ∧ ¬ vocabulary_fits d t).
Proof.
  revert acc prev. induction rest as [|c1 rest IH]; intros acc prev;
    cbn [bigram_loop]; [done|].
  destruct (d !! char prev) as [j|] eqn:Hprev.
  2:{ rewrite (char_to_index_get_None _ _ Hprev), bind_Raise.
      intros [= <-]. left. exists prev.
      split; [apply elem_of_cons; by left|done]. }
  rewrite (char_to_index_get_Some _ _ _ Hprev), bind_Ok.
  destruct (d !! char c1) as [k|] eqn:Hc1.
  2:{ rewrite (char_to_index_get_None _ _ Hc1), bind_Raise.
      intros [= <-]. left. exists c1.
      split; [apply elem_of_cons; right; apply elem_of_cons; by left|done]. }
  rewrite (char_to_index_get_Some _ _ _ Hc1), bind_Ok.
  destruct (tensor_get2 t j k) as [p|e'] eqn:Hp;
    [rewrite bind_Ok|rewrite bind_Raise].
  - intros Hrec. destruct (IH _ _ Hrec) as [(c & Hin & Hrest)|Hidx].
    + left. exists c. split; [apply elem_of_cons; by right|done].
    + by right.
  - intros [= <-]. right. split; [by eapply tensor_get2_raises|].
    intros Hfits. destruct (Hfits _ _ _ _ Hprev Hc1) as [p Hp']. congruence.
Qed.

(** X7: the only exceptions [calculate_log_likelihood] raises are the
    [KeyError] of a character of the processed word that is no key of the
    vocabulary, and an [IndexError] when an index of the vocabulary is out
    of the matrix. *)
Theorem calculate_log_likelihood_raises_only
    (word : string) (t : list (list tval)) (d : gmap string Z)
    (start_token end_token : string) (e : exn) :
  calculate_log_likelihood word t d start_token end_token = Raise e →
  (∃ c, c ∈ list_ascii_of_string (processed_word word start_token end_token)
        ∧ e = KeyError (char c) ∧ d !! char c = None)
  ∨ (e = IndexError ∧ ¬ vocabulary_fits d t).
Proof.
  unfold calculate_log_likelihood.
  destruct (list_ascii_of_string _) as [|prev rest]; [done|].
  apply bigram_loop_raises.
Qed.

Lemma calculate_log_likelihood_raises_only_witness :
  (∃ c, c ∈ list_ascii_of_string (processed_word "a" "<S>" "<E>")
        ∧ KeyError "<" = KeyError (char c)
        ∧ worked_vocabulary !! char c = None)
  ∨ (KeyError "<" = IndexError
     ∧ ¬ vocabulary_fits worked_vocabulary worked_probabilities).
Proof.
  apply (calculate_log_likelihood_raises_only "a" worked_probabilities
           worked_vocabulary "<S>" "<E>" (KeyError "<")).
  unfold calculate_log_likelihood. cbn. by eval_dict.
Defined.

(** *** Splitting a word *)

Lemma tadd_0_r x : tadd x (Fin 0) = x.
Proof. destruct x; simpl; [|done..]. f_equal. lra. Qed.

Lemma tadd_assoc x y z : tadd (tadd x y) z = tadd x (tadd y z).
Proof. destruct x, y, z; simpl; try done. f_equal. lra. Qed.

Lemma bind_assoc {A B C} (m : result A) (f : A → result B) (k : B → result C) :
  (m ≫= f) ≫= k = m ≫= (λ a, f a ≫= k).
Proof. by destruct m. Qed.

(** The accumulator only adds to what the loop computes from zero. *)
Lemma bigram_loop_accumulator t d acc prev rest :
  bigram_loop t d acc prev rest
  = bigram_loop t d (Fin 0) prev rest ≫= λ v, Ok (tadd acc v).
Proof.
  revert acc prev. induction rest as [|c rest IH]; intros acc prev;
    cbn [bigram_loop].
  - by rewrite bind_Ok, tadd_0_r.
  - destruct (char_to_index_get d (char prev)) as [j|]; [|done].
    destruct (char_to_index_get d (char c)) as [k|]; [|done].
    rewrite !bind_Ok. destruct (tensor_get2 t j k) as [p|]; [|done].
    rewrite !bind_Ok, tadd_0_l.
    rewrite (IH (tadd acc (tlog p))), (IH (tlog p)), bind_assoc.
    destruct (bigram_loop t d (Fin 0) c rest) as [v|]; [|done].
    by rewrite !bind_Ok, tadd_assoc.
Qed.




(** *** Bigrams of probability zero *)

Lemma tadd_NInf_nonpos x : tle x (Fin 0) → tadd NInf x = NInf.
Proof. by destruct x. Qed.

Lemma tadd_nonpos_NInf x : tle x (Fin 0) → tadd x NInf = NInf.
Proof. by destruct x. Qed.

Lemma bigram_loop_NInf t d prev rest v :
  probability_matrix t → bigram_loop t d NInf prev rest = Ok v → v = NInf.
Proof.
  intros Ht. rewrite bigram_loop_accumulator.
  destruct (bigram_loop t d (Fin 0) prev rest) as [v0|] eqn:Hv0; [|done].
  rewrite bind_Ok. intros [= <-]. apply tadd_NInf_nonpos.
  eapply bigram_loop_nonpos; [done| |done]. simpl. lra.
Qed.

Lemma bigram_loop_zero t d j k a b l2 l1 acc prev rest v :
  probability_matrix t →
  d !! char a = Some j → d !! char b = Some k →
  tensor_get2 t j k = Ok (Fin 0) →
  prev :: rest = l1 ++ a :: b :: l2 →
  tle acc (Fin 0) →
  bigram_loop t d acc prev rest = Ok v → v = NInf.
Proof.
  intros Ht Ha Hb Hzero. revert acc prev rest.
  induction l1 as [|x l1 IH]; intros acc prev rest Hsplit Hacc.
  - injection Hsplit as -> ->. cbn [bigram_loop].
    rewrite (char_to_index_get_Some _ _ _ Ha), (char_to_index_get_Some _ _ _ Hb),
      !bind_Ok, Hzero, bind_Ok.
    cbn [tlog]. rewrite Rsign_zero, (tadd_nonpos_NInf _ Hacc).
    by apply bigram_loop_NInf.
  - injection Hsplit as -> ->.
    destruct (l1 ++ a :: b :: l2) as [|c1 rest'] eqn:Hrest; [by destruct l1|].
    cbn [bigram_loop].
    destruct (char_to_index_get d (char x)) as [j'|]; [|done].
    destruct (char_to_index_get d (char c1)) as [k'|]; [|done].
    rewrite !bind_Ok. destruct (tensor_get2 t j' k') as [p|] eqn:Hp; [|done].
    rewrite bind_Ok. apply IH; [done|].
    apply tle_tadd_nonpos; [done|].
    eapply tlog_probability, tensor_get2_probability; done.
Qed.

(** X9: under a matrix of probabilities, a word whose processed form holds
    two adjacent characters of probability zero has log-likelihood [-inf]
    whenever a value is returned: one bigram of probability zero outweighs
    all the others. *)
Theorem calculate_log_likelihood_zero_bigram
    (word : string) (t : list (list tval)) (d : gmap string Z)
    (start_token end_token : string) (l1 l2 : list ascii) (a b : ascii)
    (j k : Z) (v : tval) :
  probability_matrix t →
  list_ascii_of_string (processed_word word start_token end_token)
  = l1 ++ a :: b :: l2 →
  d !! char a = Some j → d !! char b = Some k →
  tensor_get2 t j k = Ok (Fin 0) →
  calculate_log_likelihood word t d start_token end_token = Ok v →
  v = NInf.
Proof.
  intros Ht Hchars Ha Hb Hzero. unfold calculate_log_likelihood.
  rewrite Hchars.
  destruct (l1 ++ a :: b :: l2) as [|prev rest] eqn:Hsplit; [by destruct l1|].
  eapply (bigram_loop_zero t d j k a b l2 l1);
    [done|done|done|done|by symmetry|]. simpl. lra.
Qed.

Lemma calculate_log_likelihood_zero_bigram_witness :
  calculate_log_likelihood EmptyString worked_probabilities short_vocabulary
    "^" "$"
  = Ok NInf.
Proof.
  assert (∃ v, calculate_log_likelihood EmptyString worked_probabilities
                 short_vocabulary "^" "$" = Ok v) as [v Hv].
  { unfold calculate_log_likelihood.
    apply bigram_loop_returns.
    - apply short_vocabulary_fits; [reflexivity|]. by repeat constructor.
    - repeat constructor; eexists; vm_compute; reflexivity. }
  rewrite Hv. f_equal.
  apply (calculate_log_likelihood_zero_bigram EmptyString worked_probabilities
           short_vocabulary "^" "$" [] [] "^"%char "$"%char 0 1 v).
  - apply worked_probabilities_valid.
  - reflexivity.
  - vm_compute. reflexivity.
  - vm_compute. reflexivity.
  - reflexivity.
  - exact Hv.
Defined.

(** X10: the empty word with one-character tokens has the single bigram
    (start, end): its log-likelihood is the logarithm of that entry. *)
Theorem calculate_log_likelihood_empty_word
    (t : list (list tval)) (d : gmap string Z) (cs ce : ascii)
    (js je : Z) (p : tval) :
  d !! char cs = Some js → d !! char ce = Some je →
  tensor_get2 t js je = Ok p →
  calculate_log_likelihood EmptyString t d (char cs) (char ce) = Ok (tlog p).
Proof.
  intros Hs He Hp. unfold calculate_log_likelihood.
  change (list_ascii_of_string _) with [cs; ce]. cbn [bigram_loop].
  rewrite (char_to_index_get_Some _ _ _ Hs), (char_to_index_get_Some _ _ _ He),
    !bind_Ok, Hp, bind_Ok.
  by rewrite tadd_0_l.
Qed.

Lemma calculate_log_likelihood_empty_word_witness :
  calculate_log_likelihood EmptyString uniform_probabilities short_vocabulary
    "^" "$"
  = Ok (tlog (Fin (1 / 4))).
Proof.
  apply (calculate_log_likelihood_empty_word uniform_probabilities
           short_vocabulary "^" "$" 0 1 (Fin (1 / 4))).
  - vm_compute. reflexivity.
  - vm_compute. reflexivity.
  - reflexivity.
Defined.

(** ** The corpus score *)

Lemma total_loop_finite t d start_token end_token words vs a :
  Forall2 (λ w v, calculate_log_likelihood w t d start_token end_token
                  = Ok (Fin v)) words vs →
  total_loop t d start_token end_token (Fin a) words = Ok (Fin (a + Rsum vs)).
Proof.
  intros Hall. revert a.
  induction Hall as [|w v words vs Hw _ IH]; intros a; cbn [total_loop].
  - simpl. do 2 f_equal. lra.
  - rewrite Hw, bind_Ok. cbn [tadd]. rewrite IH. do 2 f_equal. simpl. lra.
Qed.

(** X11: on a non-empty list of words whose log-likelihoods are the finite
    numbers [v_1 .. v_n], the result is [-(v_1 + .. + v_n) / n]. *)
Theorem calculate_neg_mean_log_likelihood_mean
    (words : list string) (vs : list R) (t : list (list tval))
    (d : gmap string Z) (start_token end_token : string) :
  words ≠ [] →
  Forall2 (λ w v, calculate_log_likelihood w t d start_token end_token
                  = Ok (Fin v)) words vs →
  calculate_neg_mean_log_likelihood words t d start_token end_token
  = Ok (Fin (- Rsum vs / INR (length words))).
Proof.
  intros Hne Hall. unfold calculate_neg_mean_log_likelihood.
  rewrite (total_loop_finite _ _ _ _ _ _ _ Hall), bind_Ok.
  unfold py_truediv. destruct (Z.eqb_spec (Z.of_nat (length words)) 0) as [H0|H0].
  { destruct words; [done|]. simpl in H0. lia. }
  assert (0 < INR (length words)) as Hn.
  { apply lt_0_INR. destruct words; [done|]. simpl. lia. }
  rewrite <- INR_IZR_INZ. cbn [tneg]. rewrite tdiv_Fin by lra.
  do 2 f_equal. lra.
Qed.

Lemma calculate_neg_mean_log_likelihood_mean_witness :
  calculate_neg_mean_log_likelihood ["a"; "A"] worked_probabilities
    short_vocabulary "^" "$"
  = Ok (Fin (- Rsum [0 + ln (1 / 2) + ln (1 / 2); 0 + ln (1 / 2) + ln (1 / 2)]
             / INR (length ["a"; "A"]))).
Proof.
  assert (∀ w, lower w = "a" →
            calculate_log_likelihood w worked_probabilities short_vocabulary
              "^" "$" = Ok (Fin (0 + ln (1 / 2) + ln (1 / 2)))) as Hscore.
  { intros w Hw. unfold calculate_log_likelihood, processed_word. rewrite Hw.
    change (list_ascii_of_string _) with ["^"; "a"; "$"]%char.
    cbn [bigram_loop]. eval_dict.
    change (tensor_get2 worked_probabilities 0 2) with (@Ok tval (Fin (1 / 2))).
    rewrite !bind_Ok.
    change (tensor_get2 worked_probabilities 2 1) with (@Ok tval (Fin (1 / 2))).
    rewrite !bind_Ok, !tlog_pos by lra. reflexivity. }
  apply (calculate_neg_mean_log_likelihood_mean ["a"; "A"]
           [0 + ln (1 / 2) + ln (1 / 2); 0 + ln (1 / 2) + ln (1 / 2)]).
  - done.
  - repeat constructor; by apply Hscore.
Defined.

Lemma calculate_log_likelihood_value_nonpos word t d start_token end_token v :
  probability_matrix t →
  calculate_log_likelihood word t d start_token end_token = Ok v →
  tle v (Fin 0).
Proof.
  intros Ht. unfold calculate_log_likelihood.
  destruct (list_ascii_of_string _) as [|c rest].
  - intros [= <-]. simpl. lra.
  - apply bigram_loop_nonpos; [done|]. simpl. lra.
Qed.

Lemma total_loop_nonpos t d start_token end_token acc words v :
  probability_matrix t → tle acc (Fin 0) →
  total_loop t d start_token end_token acc words = Ok v → tle v (Fin 0).
Proof.
  intros Ht. revert acc. induction words as [|w words IH]; intros acc Hacc;
    cbn [total_loop].
  - by intros [= <-].
  - destruct (calculate_log_likelihood w t d start_token end_token) as [x|]
      eqn:Hx; [|done].
    rewrite bind_Ok. apply IH. apply tle_tadd_nonpos; [done|].
    by eapply calculate_log_likelihood_value_nonpos.
Qed.

(** X12: under a matrix of probabilities the value returned for a corpus is
    never negative; it is [+inf] when a word holds a bigram of probability
    zero. *)
Theorem calculate_neg_mean_log_likelihood_nonnegative
    (words : list string) (t : list (list tval)) (d : gmap string Z)
    (start_token end_token : string) (v : tval) :
  probability_matrix t →
  calculate_neg_mean_log_likelihood words t d start_token end_token = Ok v →
  tle (Fin 0) v.
Proof.
  intros Ht. unfold calculate_neg_mean_log_likelihood.
  destruct (total_loop t d start_token end_token (Fin 0) words) as [total|]
    eqn:Htotal; [|done].
  rewrite bind_Ok. unfold py_truediv.
  destruct (Z.eqb_spec (Z.of_nat (length words)) 0) as [H0|H0]; [done|].
  intros [= <-].
  assert (0 < IZR (Z.of_nat (length words))) as Hn by (apply IZR_lt; lia).
  assert (tle total (Fin 0)) as Htle.
  { eapply total_loop_nonpos; [done| |done]. simpl. lra. }
  destruct total as [r| | |]; simpl in Htle; try done.
  - cbn [tneg]. rewrite tdiv_Fin by lra. simpl.
    pose proof (Rinv_0_lt_compat _ Hn). unfold Rdiv.
    apply Rmult_le_pos; lra.
  - simpl. by rewrite Rsign_pos.
Qed.

Lemma calculate_neg_mean_log_likelihood_nonnegative_witness :
  tle (Fin 0) PInf
  ∧ calculate_neg_mean_log_likelihood [EmptyString] worked_probabilities
      short_vocabulary "^" "$" = Ok PInf.
Proof.
  assert (calculate_neg_mean_log_likelihood [EmptyString] worked_probabilities
            short_vocabulary "^" "$" = Ok PInf) as Hv.
  { unfold calculate_neg_mean_log_likelihood. cbn [total_loop].
    unfold calculate_log_likelihood.
    change (list_ascii_of_string _) with ["^"; "$"]%char.
    cbn [bigram_loop]. eval_dict.
    change (tensor_get2 worked_probabilities 0 1) with (@Ok tval (Fin 0)).
    rewrite !bind_Ok. cbn [tlog]. rewrite Rsign_zero. cbn [tadd tneg].
    unfold py_truediv. change (Z.of_nat (length [EmptyString])) with 1%Z.
    cbn [Z.eqb]. by rewrite tdiv_1_r. }
  split; [|exact Hv].
  exact (calculate_neg_mean_log_likelihood_nonnegative [EmptyString]
           worked_probabilities short_vocabulary "^" "$" PInf
           worked_probabilities_valid Hv).
Defined.

Lemma calculate_log_likelihood_lookup_error word t d start_token end_token e :
  calculate_log_likelihood word t d start_token end_token = Raise e →
  lookup_error d e.
Proof.
  unfold calculate_log_likelihood.
  destruct (list_ascii_of_string _) as [|prev rest]; [done|].
  intros Hloop.
  destruct (bigram_loop_raises _ _ _ _ _ _ Hloop)
    as [(c & _ & -> & Hc)|[-> _]].
  - left. by eexists.
  - by right.
Qed.

Lemma total_loop_raises t d start_token end_token acc words e :
  total_loop t d start_token end_token acc words = Raise e →
  ∃ w, w ∈ words
       ∧ calculate_log_likelihood w t d start_token end_token = Raise e.
Proof.
  revert acc. induction words as [|w words IH]; intros acc; cbn [total_loop];
    [done|].
  destruct (calculate_log_likelihood w t d start_token end_token) as [x|e']
    eqn:Hx.
  - rewrite bind_Ok. intros Hrec. destruct (IH _ Hrec) as (w' & Hin & Hw').
    exists w'. split; [apply elem_of_cons; by right|done].
  - rewrite bind_Raise. intros [= <-]. exists w.
    split; [apply elem_of_cons; by left|done].
Qed.

(** X13: [calculate_neg_mean_log_likelihood] raises [ZeroDivisionError] on
    the empty list and on no other input; any other exception is the
    lookup error ([KeyError] or [IndexError]) of one of the words. *)
Theorem calculate_neg_mean_log_likelihood_raises_only
    (words : list string) (t : list (list tval)) (d : gmap string Z)
    (start_token end_token : string) (e : exn) :
  calculate_neg_mean_log_likelihood words t d start_token end_token = Raise e →
  (e = ZeroDivisionError ∧ words = [])
  ∨ (e ≠ ZeroDivisionError ∧ lookup_error d e
     ∧ ∃ w, w ∈ words
            ∧ calculate_log_likelihood w t d start_token end_token = Raise e).
Proof.
  unfold calculate_neg_mean_log_likelihood.
  destruct (total_loop t d start_token end_token (Fin 0) words) as [total|e']
    eqn:Htotal.
  - rewrite bind_Ok. unfold py_truediv.
    destruct (Z.eqb_spec (Z.of_nat (length words)) 0) as [H0|H0]; [|done].
    intros [= <-]. left. split; [done|]. destruct words; [done|].
    simpl in H0. lia.
  - rewrite bind_Raise. intros [= <-]. right.
    destruct (total_loop_raises _ _ _ _ _ _ _ Htotal) as (w & Hin & Hw).
    pose proof (calculate_log_likelihood_lookup_error _ _ _ _ _ _ Hw) as Herr.
    split; [|split; [done|by exists w]].
    destruct Herr as [(key & -> & _)| ->]; done.
Qed.

Lemma calculate_neg_mean_log_likelihood_raises_only_witness :
  (KeyError "x" = ZeroDivisionError ∧ ["a"; "x"] = [])
  ∨ (KeyError "x" ≠ ZeroDivisionError ∧ lookup_error short_vocabulary (KeyError "x")
     ∧ ∃ w, w ∈ ["a"; "x"]
            ∧ calculate_log_likelihood w worked_probabilities short_vocabulary
                "^" "$" = Raise (KeyError "x")).
Proof.
  apply (calculate_neg_mean_log_likelihood_raises_only ["a"; "x"]
           worked_probabilities short_vocabulary "^" "$" (KeyError "x")).
  assert (calculate_log_likelihood "a" worked_probabilities short_vocabulary
            "^" "$" = Ok (Fin (0 + ln (1 / 2) + ln (1 / 2)))) as Ha.
  { unfold calculate_log_likelihood.
    change (list_ascii_of_string _) with ["^"; "a"; "$"]%char.
    cbn [bigram_loop]. eval_dict.
    change (tensor_get2 worked_probabilities 0 2) with (@Ok tval (Fin (1 / 2))).
    rewrite !bind_Ok.
    change (tensor_get2 worked_probabilities 2 1) with (@Ok tval (Fin (1 / 2))).
    rewrite !bind_Ok, !tlog_pos by lra. reflexivity. }
  unfold calculate_neg_mean_log_likelihood. cbn [total_loop].
  rewrite Ha, bind_Ok. unfold calculate_log_likelihood.
  change (list_ascii_of_string (processed_word "x" "^" "$"))
    with ["^"; "x"; "$"]%char.
  cbn [bigram_loop]. by eval_dict.
Defined.

(** X14: the exception of a corpus is that of its first failing word: when
    the words before [w] return a value and [w] raises [e], the call on the
    whole list raises [e], whatever follows [w]. *)
Theorem calculate_neg_mean_log_likelihood_first_failure
    (before after : list string) (w : string) (t : list (list tval))
    (d : gmap string Z) (start_token end_token : string) (e : exn) :
  Forall (λ w', ∃ v, calculate_log_likelihood w' t d start_token end_token
                     = Ok v) before →
  calculate_log_likelihood w t d start_token end_token = Raise e →
  calculate_neg_mean_log_likelihood (before ++ w :: after) t d
    start_token end_token
  = Raise e.
Proof.
  intros Hbefore Hw. unfold calculate_neg_mean_log_likelihood.
  assert (∀ acc, total_loop t d start_token end_token acc
                   (before ++ w :: after) = Raise e) as ->; [|done].
  induction Hbefore as [|w' before [v Hv] _ IH]; intros acc;
    cbn [app total_loop].
  - by rewrite Hw.
  - rewrite Hv, bind_Ok. apply IH.
Qed.

Lemma calculate_neg_mean_log_likelihood_first_failure_witness :
  calculate_neg_mean_log_likelihood (["a"; "b"] ++ "x" :: ["y"])
    worked_probabilities short_vocabulary "^" "$"
  = Raise (KeyError "x").
Proof.
  apply (calculate_neg_mean_log_likelihood_first_failure ["a"; "b"] ["y"] "x"
           worked_probabilities short_vocabulary "^" "$" (KeyError "x")).
  - assert (∀ w, spelled short_vocabulary (processed_word w "^" "$") →
              ∃ v, calculate_log_likelihood w worked_probabilities
                     short_vocabulary "^" "$" = Ok v) as Hreturns.
    { intros w Hw. unfold calculate_log_likelihood, spelled in *.
      destruct (list_ascii_of_string _) as [|c rest]; [by eexists|].
      apply bigram_loop_returns; [|done].
      apply short_vocabulary_fits; [reflexivity|]. by repeat constructor. }
    repeat constructor; apply Hreturns; unfold spelled; simpl;
      repeat constructor; eexists; vm_compute; reflexivity.
  - unfold calculate_log_likelihood.
    change (list_ascii_of_string (processed_word "x" "^" "$"))
      with ["^"; "x"; "$"]%char.
    cbn [bigram_loop]. by eval_dict.
Defined.

(** ** The sampler *)

Lemma tensor_get_wrap {A} (t : list A) (i : Z) :
  (0 <= i < Z.of_nat (length t))%Z →
  tensor_get t (i - Z.of_nat (length t)) = tensor_get t i.
Proof.
  intros Hi. unfold tensor_get.
  destruct (Z.ltb_spec (i - Z.of_nat (length t)) 0); [|lia].
  destruct (Z.ltb_spec i 0); [lia|].
  by replace (i - Z.of_nat (length t) + Z.of_nat (length t))%Z with i by lia.
Qed.

(** X15: a negative index counts from the end: for a matrix of [N] rows and
    [0 <= i < N], the index [i - N] samples from the same row as [i] and
    raises nothing of its own. *)
Theorem sample_next_character_negative_index {G : Type}
    (multinomial : list tval → G → result (Z * G))
    (i : Z) (t : list (list tval)) (i2c : gmap Z string) (g : G) :
  (0 <= i < Z.of_nat (length t))%Z →
  sample_next_character multinomial (i - Z.of_nat (length t)) t i2c g
  = sample_next_character multinomial i t i2c g.
Proof.
  intros Hi. unfold sample_next_character. by rewrite tensor_get_wrap.
Qed.

Lemma sample_next_character_negative_index_witness :
  sample_next_character scripted_multinomial (3 - Z.of_nat 4)
    uniform_probabilities short_symbols 0%nat
  = sample_next_character scripted_multinomial 3 uniform_probabilities
      short_symbols 0%nat.
Proof.
  apply (sample_next_character_negative_index scripted_multinomial 3
           uniform_probabilities short_symbols 0%nat).
  simpl. lia.
Defined.

Lemma weights_inv probs ws :
  mapM weight probs = Some ws →
  probs = map Fin ws ∧ Forall (λ w, 0 <= w) ws.
Proof.
  revert ws. induction probs as [|p probs IH]; intros ws.
  - intros [= <-]. split; [done|constructor].
  - cbn [mapM]. destruct p as [r| | |]; cbn [weight]; try done.
    destruct (Rle_dec 0 r) as [Hr|]; [|done]. cbn.
    destruct (mapM weight probs) as [ws'|]; [|done]. cbn.
    intros [= <-]. destruct (IH ws' eq_refl) as [-> Hws].
    split; [done|by constructor].
Qed.

Lemma torch_multinomial_Ok probs g j g' :
  torch_multinomial probs g = Ok (j, g') →
  ∃ ws, probs = map Fin ws ∧ Forall (λ w, 0 <= w) ws ∧ 0 < Rsum ws
        ∧ j = pick ws (uniform g (drawn g) * Rsum ws) ∧ g' = advance g.
Proof.
  unfold torch_multinomial.
  destruct (mapM weight probs) as [ws|] eqn:Hws; [|done].
  fold (Rsum ws). destruct (Rlt_dec 0 (Rsum ws)) as [Hpos|]; [|done].
  intros [= <- <-]. destruct (weights_inv _ _ Hws) as [-> Hnn].
  by exists ws.
Qed.

Lemma pick_positive ws u :
  Forall (λ w, 0 <= w) ws → 0 <= u < Rsum ws →
  ∃ w, ws !! Z.to_nat (pick ws u) = Some w ∧ 0 < w.
Proof.
  intros Hws. revert u. induction Hws as [|w ws Hw Hws IH]; intros u Hu;
    simpl in *; [lra|].
  destruct (Rlt_dec u w) as [Hlt|Hge].
  - exists w. split; [done|lra].
  - destruct (IH (u - w)) as (w' & Hw' & Hpos); [lra|].
    exists w'. split; [|done].
    pose proof (pick_in_range ws (u - w) Hws ltac:(lra)) as Hrange.
    replace (Z.to_nat (1 + pick ws (u - w))) with (S (Z.to_nat (pick ws (u - w))))
      by lia.
    done.
Qed.

Lemma scaled_variate_in_range u total :
  0 <= u < 1 → 0 < total → 0 <= u * total < total.
Proof. intros Hu Ht. split; [apply Rmult_le_pos; lra|nra]. Qed.

Lemma torch_sample_support
    (idx : Z) (t : list (list tval)) (i2c : gmap Z string)
    (g g' : generator) (c : string) :
  0 <= uniform g (drawn g) < 1 →
  sample_next_character torch_multinomial idx t i2c g = Ok (c, g') →
  ∃ row j p,
    tensor_get t idx = Ok row ∧ (0 <= j)%Z
    ∧ row !! Z.to_nat j = Some (Fin p) ∧ 0 < p
    ∧ i2c !! j = Some c ∧ g' = advance g.
Proof.
  intros Hu. unfold sample_next_character.
  destruct (tensor_get t idx) as [row|] eqn:Hrow; [|done]. rewrite bind_Ok.
  destruct (torch_multinomial row g) as [[j g1]|] eqn:Hdraw; [|done].
  rewrite bind_Ok. cbn beta iota.
  unfold idx_to_char_get. destruct (i2c !! j) as [c'|] eqn:Hc'; [|done].
  rewrite bind_Ok. intros [= <- <-].
  destruct (torch_multinomial_Ok _ _ _ _ Hdraw) as (ws & -> & Hws & Hpos & -> & ->).
  pose proof (scaled_variate_in_range _ _ Hu Hpos) as Hscaled.
  destruct (pick_positive ws _ Hws Hscaled) as (w & Hw & Hwpos).
  pose proof (pick_in_range ws _ Hws Hscaled) as Hrange.
  exists (map Fin ws), (pick ws (uniform g (drawn g) * Rsum ws)), w.
  split; [done|]. split; [lia|]. split; [by rewrite lookup_map, Hw|done].
Qed.

(** X16: with [torch.multinomial] as modelled and a variate of [[0, 1)], a
    symbol returned by [sample_next_character] is the symbol of an index
    whose entry in the selected row is positive: an entry of probability
    zero is never drawn. *)
Theorem sample_next_character_support
    (idx : Z) (t : list (list tval)) (i2c : gmap Z string)
    (g g' : generator) (c : string) :
  0 <= uniform g (drawn g) < 1 →
  sample_next_character torch_multinomial idx t i2c g = Ok (c, g') →
  ∃ row j p,
    tensor_get t idx = Ok row ∧ (0 <= j)%Z
    ∧ row !! Z.to_nat j = Some (Fin p) ∧ 0 < p
    ∧ i2c !! j = Some c ∧ g' = advance g.
Proof. apply torch_sample_support. Qed.

Lemma sample_next_character_support_witness :
  ∃ row j p,
    tensor_get worked_probabilities 0 = Ok row ∧ (0 <= j)%Z
    ∧ row !! Z.to_nat j = Some (Fin p) ∧ 0 < p
    ∧ short_symbols !! j = Some "a" ∧ advance zero_generator = advance zero_generator.
Proof.
  apply (sample_next_character_support 0 worked_probabilities short_symbols
           zero_generator (advance zero_generator) "a").
  - simpl. lra.
  - unfold sample_next_character.
    change (tensor_get worked_probabilities 0)
      with (@Ok (list tval) (map Fin [0; 0; 1 / 2; 1 / 2])).
    assert (Rsum [0; 0; 1 / 2; 1 / 2] = 1) as Hsum by (simpl; lra).
    rewrite bind_Ok, torch_multinomial_weights;
      [|repeat constructor; lra|rewrite Hsum; lra].
    rewrite bind_Ok. cbn beta iota. rewrite Hsum.
    cbn [pick zero_generator uniform drawn].
    destruct (Rlt_dec (0 * 1) 0); [lra|].
    destruct (Rlt_dec (0 * 1 - 0) 0); [lra|].
    destruct (Rlt_dec (0 * 1 - 0 - 0) (1 / 2)); [|lra].
    by rewrite (idx_to_char_get_Some _ _ "a") by (vm_compute; reflexivity).
Defined.

(** ** The generator *)

(** X17: with a maximum length of zero or less nothing is looked up and
    nothing is drawn: the empty name is returned and the generator is left
    as it was, even when the start token is no key of the vocabulary. *)
Theorem generate_name_no_iteration {G : Type}
    (multinomial : list tval → G → result (Z * G))
    (start_token end_token : string) (d : gmap string Z) (i2c : gmap Z string)
    (t : list (list tval)) (L : Z) (g : G) :
  (L <= 0)%Z →
  generate_name multinomial start_token end_token d i2c t L g
  = Ok (EmptyString, g).
Proof.
  intros HL. unfold generate_name.
  by replace (Z.to_nat L) with 0%nat by lia.
Qed.

Lemma generate_name_no_iteration_witness :
  generate_name scripted_multinomial "?" "$" short_vocabulary short_symbols
    uniform_probabilities (-3) 0%nat
  = Ok (EmptyString, 0%nat).
Proof.
  apply (generate_name_no_iteration scripted_multinomial "?" "$"
           short_vocabulary short_symbols uniform_probabilities (-3) 0%nat).
  lia.
Defined.

(** X18: with a maximum length of one or more, a start token that is no
    key of [char_to_idx] raises its [KeyError] before anything is drawn. *)
Theorem generate_name_unknown_start {G : Type}
    (multinomial : list tval → G → result (Z * G))
    (start_token end_token : string) (d : gmap string Z) (i2c : gmap Z string)
    (t : list (list tval)) (L : Z) (g : G) :
  (1 <= L)%Z → d !! start_token = None →
  generate_name multinomial start_token end_token d i2c t L g
  = Raise (KeyError start_token).
Proof.
  intros HL Hstart. unfold generate_name.
  destruct (Z.to_nat L) as [|n] eqn:Hn; [lia|]. cbn [generate_loop].
  by rewrite (char_to_index_get_None _ _ Hstart).
Qed.

Lemma generate_name_unknown_start_witness :
  generate_name scripted_multinomial "?" "$" short_vocabulary short_symbols
    uniform_probabilities 15 0%nat
  = Raise (KeyError "?").
Proof.
  apply (generate_name_unknown_start scripted_multinomial "?" "$"
           short_vocabulary short_symbols uniform_probabilities 15 0%nat).
  - lia.
  - vm_compute. reflexivity.
Defined.

Lemma join_app (l1 l2 : list string) : join (l1 ++ l2) = join l1 +:+ join l2.
Proof.
  induction l1 as [|sym l1 IH]; [done|].
  cbn [app]. by rewrite !join_cons, IH, append_assoc.
Qed.

Section GenerationPrefix.
Context {G : Type}.
Variable multinomial : list tval → G → result (Z * G).
Variables (end_token : string) (d : gmap string Z) (i2c : gmap Z string)
  (t : list (list tval)).

(** A run of [n + m] iterations that returns extends the run of [n]
    iterations, which returns as well. *)
Lemma appended_symbols_prefix n m cur g syms' g2 :
  appended_symbols multinomial end_token d i2c t (n + m) cur g
  = Ok (syms', g2) →
  ∃ syms g1 rest,
    appended_symbols multinomial end_token d i2c t n cur g = Ok (syms, g1)
    ∧ syms' = syms ++ rest.
Proof.
  revert cur g syms' g2. induction n as [|n IH]; intros cur g syms' g2.
  - intros _. by exists [], g, syms'.
  - cbn [Nat.add appended_symbols].
    destruct (char_to_index_get d cur) as [idx|]; [|done]. rewrite !bind_Ok.
    destruct (sample_next_character multinomial idx t i2c g) as [[c g1]|];
      [|done].
    rewrite !bind_Ok. cbn beta iota. case_decide.
    + intros [= <- <-]. by exists [], g1, [].
    + destruct (appended_symbols _ _ _ _ _ (n + m) c g1) as [[s' g3]|] eqn:Hrec;
        [|done].
      rewrite bind_Ok. cbn beta iota. intros [= <- <-].
      destruct (IH _ _ _ _ Hrec) as (s & g4 & rest & -> & ->).
      rewrite bind_Ok. cbn beta iota. by exists (c :: s), g4, rest.
Qed.

(** Every symbol appended is a value of [idx_to_char]. *)
Lemma appended_symbols_values n cur g syms g' :
  appended_symbols multinomial end_token d i2c t n cur g = Ok (syms, g') →
  Forall (λ sym, ∃ j, i2c !! j = Some sym) syms.
Proof.
  revert cur g syms g'. induction n as [|n IH]; intros cur g syms g';
    cbn [appended_symbols].
  - intros [= <- <-]. constructor.
  - destruct (char_to_index_get d cur) as [idx|]; [|done]. rewrite bind_Ok.
    unfold sample_next_character.
    destruct (tensor_get t idx) as [row|]; [|done]. rewrite bind_Ok.
    destruct (multinomial row g) as [[j g1]|]; [|done].
    rewrite bind_Ok. cbn beta iota. unfold idx_to_char_get.
    destruct (i2c !! j) as [c|] eqn:Hc; [|done]. rewrite !bind_Ok.
    cbn beta iota. case_decide.
    + intros [= <- <-]. constructor.
    + destruct (appended_symbols _ _ _ _ _ n c g1) as [[s g2]|] eqn:Hrec;
        [|done].
      rewrite bind_Ok. cbn beta iota. intros [= <- <-].
      constructor; [by exists j|by eapply IH].
Qed.
End GenerationPrefix.

(** X19: a larger maximum length only extends the name: when the call with
    [L'] returns a name, the call with any [L <= L'] from the same generator
    state returns too, and its name is a prefix of the longer one. *)
Theorem generate_name_prefix {G : Type}
    (multinomial : list tval → G → result (Z * G))
    (start_token end_token : string) (d : gmap string Z) (i2c : gmap Z string)
    (t : list (list tval)) (L L' : Z) (g g2 : G) (name' : string) :
  (L <= L')%Z →
  generate_name multinomial start_token end_token d i2c t L' g
  = Ok (name', g2) →
  ∃ name g1 rest,
    generate_name multinomial start_token end_token d i2c t L g
    = Ok (name, g1)
    ∧ name' = name +:+ rest.
Proof.
  intros HL. unfold generate_name. rewrite !generate_loop_appended.
  replace (Z.to_nat L') with (Z.to_nat L + (Z.to_nat L' - Z.to_nat L))%nat
    by lia.
  destruct (appended_symbols _ _ _ _ _ (_ + _) _ _) as [[syms' g3]|] eqn:Hlong;
    [|done].
  rewrite fmap_Ok. cbn [fst snd]. intros [= <- <-].
  destruct (appended_symbols_prefix _ _ _ _ _ _ _ _ _ _ _ Hlong)
    as (syms & g1 & rest & -> & ->).
  rewrite fmap_Ok. cbn [fst snd].
  exists (EmptyString +:+ join syms), g1, (join rest). split; [done|].
  by rewrite join_app, !append_assoc.
Qed.

Lemma generate_name_prefix_witness :
  ∃ name g1 rest,
    generate_name scripted_multinomial "^" "$" short_vocabulary short_symbols
      uniform_probabilities 1 0%nat
    = Ok (name, g1)
    ∧ "ab" = name +:+ rest.
Proof.
  apply (generate_name_prefix scripted_multinomial "^" "$" short_vocabulary
           short_symbols uniform_probabilities 1 5 0%nat 3%nat "ab").
  - lia.
  - reflexivity.
Defined.

Lemma length_append (s1 s2 : string) :
  String.length (s1 +:+ s2) = (String.length s1 + String.length s2)%nat.
Proof.
  induction s1 as [|c s1 IH]; [done|].
  change (S (String.length (s1 +:+ s2))
          = S (String.length s1 + String.length s2)).
  by rewrite IH.
Qed.

Lemma length_join (m : nat) (syms : list string) :
  Forall (λ sym, (String.length sym <= m)%nat) syms →
  (String.length (join syms) <= m * length syms)%nat.
Proof.
  induction 1 as [|sym syms Hsym _ IH]; [simpl; lia|].
  rewrite join_cons, length_append. cbn [length]. lia.
Qed.

(** X20: the bound on symbols is a bound on characters once the symbols
    are bounded: when every value of [idx_to_char] has at most [m]
    characters, a name returned for a maximum length [L >= 0] has at most
    [m * L] characters, hence at most [L] for one-character symbols. *)
Theorem generate_name_length {G : Type}
    (multinomial : list tval → G → result (Z * G))
    (start_token end_token : string) (d : gmap string Z) (i2c : gmap Z string)
    (t : list (list tval)) (L : Z) (g g' : G) (name : string) (m : nat) :
  (0 <= L)%Z →
  (∀ j sym, i2c !! j = Some sym → (String.length sym <= m)%nat) →
  generate_name multinomial start_token end_token d i2c t L g
  = Ok (name, g') →
  (Z.of_nat (String.length name) <= Z.of_nat m * L)%Z.
Proof.
  intros HL Hm. unfold generate_name. rewrite generate_loop_appended.
  destruct (appended_symbols _ _ _ _ _ _ _ _) as [[syms g1]|] eqn:Happ; [|done].
  rewrite fmap_Ok. cbn [fst snd]. intros [= <- <-].
  destruct (appended_symbols_bounded _ _ _ _ _ _ _ _ _ _ Happ) as [Hlen _].
  pose proof (appended_symbols_values _ _ _ _ _ _ _ _ _ _ Happ) as Hvals.
  assert (String.length (join syms) <= m * length syms)%nat as Hjoin.
  { apply length_join. eapply Forall_impl; [exact Hvals|].
    intros sym [j Hj]. by eapply Hm. }
  change (EmptyString +:+ join syms) with (join syms). nia.
Qed.

Lemma generate_name_length_witness :
  (Z.of_nat (String.length "ab") <= Z.of_nat 1 * 5)%Z.
Proof.
  apply (generate_name_length scripted_multinomial "^" "$" short_vocabulary
           short_symbols uniform_probabilities 5 0%nat 3%nat "ab" 1).
  - lia.
  - assert (map_Forall (λ _ sym, (String.length sym <= 1)%nat) short_symbols)
      as Hall by (apply (bool_decide_unpack _); vm_compute; reflexivity).
    intros j sym Hj. exact (Hall j sym Hj).
  - reflexivity.
Defined.

Lemma variates_in_range_advance g :
  variates_in_range g → variates_in_range (advance g).
Proof. done. Qed.

Lemma appended_symbols_support end_token d i2c t n cur g syms g' :
  variates_in_range g →
  appended_symbols torch_multinomial end_token d i2c t n cur g
  = Ok (syms, g') →
  Forall (λ sym, ∃ row j p,
            row ∈ t ∧ (0 <= j)%Z ∧ row !! Z.to_nat j = Some (Fin p)
            ∧ 0 < p ∧ i2c !! j = Some sym) syms.
Proof.
  revert cur g syms g'. induction n as [|n IH]; intros cur g syms g' Hg;
    cbn [appended_symbols].
  - intros [= <- <-]. constructor.
  - destruct (char_to_index_get d cur) as [idx|]; [|done]. rewrite bind_Ok.
    destruct (sample_next_character torch_multinomial idx t i2c g)
      as [[c g1]|] eqn:Hs; [|done].
    rewrite bind_Ok. cbn beta iota.
    destruct (torch_sample_support _ _ _ _ _ _ (Hg (drawn g)) Hs)
      as (row & j & p & Hrow & Hj & Hp & Hpos & Hc & ->).
    case_decide.
    + intros [= <- <-]. constructor.
    + destruct (appended_symbols _ _ _ _ _ n c (advance g)) as [[s g2]|] eqn:Hrec;
        [|done].
      rewrite bind_Ok. cbn beta iota. intros [= <- <-]. constructor.
      * exists row, j, p. split; [by eapply tensor_get_elem|done].
      * eapply IH; [|done]. by apply variates_in_range_advance.
Qed.

(** X21: with [torch.multinomial] as modelled and variates of [[0, 1)], a
    symbol whose indices have the entry zero in every row of the matrix is
    never part of a generated name.  This is how the start token stays out
    of the names under a matrix built without smoothing. *)
Theorem generate_name_excludes_zero_column
    (start_token end_token sym : string) (d : gmap string Z)
    (i2c : gmap Z string) (t : list (list tval)) (L : Z)
    (g g' : generator) (name : string) :
  variates_in_range g →
  (∀ row j p, row ∈ t → i2c !! j = Some sym → (0 <= j)%Z →
              row !! Z.to_nat j = Some (Fin p) → p = 0) →
  generate_name torch_multinomial start_token end_token d i2c t L g
  = Ok (name, g') →
  ∃ syms,
    appended_symbols torch_multinomial end_token d i2c t (Z.to_nat L)
      start_token g = Ok (syms, g')
    ∧ name = join syms ∧ sym ∉ syms.
Proof.
  intros Hg Hzero. unfold generate_name. rewrite generate_loop_appended.
  destruct (appended_symbols _ _ _ _ _ _ _ _) as [[syms g1]|] eqn:Happ; [|done].
  rewrite fmap_Ok. cbn [fst snd]. intros [= <- <-].
  exists syms. split; [done|]. split; [done|]. intros Hin.
  pose proof (appended_symbols_support _ _ _ _ _ _ _ _ _ Hg Happ) as Hsupp.
  eapply Forall_forall in Hsupp; [|exact Hin].
  destruct Hsupp as (row & j & p & Hrow & Hj & Hp & Hpos & Hc).
  pose proof (Hzero row j p Hrow Hc Hj Hp). lra.
Qed.

Lemma generate_name_excludes_zero_column_witness :
  ∃ syms,
    appended_symbols torch_multinomial "$" short_vocabulary short_symbols
      unsmoothed_probabilities (Z.to_nat 1) "^" zero_generator
    = Ok (syms, advance zero_generator)
    ∧ "a" = join syms ∧ "^" ∉ syms.
Proof.
  apply (generate_name_excludes_zero_column "^" "$" "^" short_vocabulary
           short_symbols unsmoothed_probabilities 1 zero_generator
           (advance zero_generator) "a").
  - intros n. simpl. lra.
  - assert (map_Forall (λ j sym, sym = "^" → j = 0%Z) short_symbols) as Hkeys
      by (apply (bool_decide_unpack _); vm_compute; reflexivity).
    intros row j p Hrow Hsym _ Hp. rewrite (Hkeys j _ Hsym eq_refl) in Hp.
    unfold unsmoothed_probabilities in Hrow.
    repeat (apply elem_of_cons in Hrow as [-> | Hrow];
            [by injection Hp as <-|]).
    by apply elem_of_nil in Hrow.
  - unfold generate_name. change (Z.to_nat 1) with 1%nat. cbn [generate_loop].
    eval_dict. unfold sample_next_character.
    change (tensor_get unsmoothed_probabilities 0)
      with (@Ok (list tval) (map Fin [0; 0; 1 / 2; 1 / 2])).
    assert (Rsum [0; 0; 1 / 2; 1 / 2] = 1) as Hsum by (simpl; lra).
    rewrite bind_Ok, torch_multinomial_weights;
      [|repeat constructor; lra|rewrite Hsum; lra].
    rewrite bind_Ok. cbn beta iota. rewrite Hsum.
    cbn [pick zero_generator uniform drawn].
    destruct (Rlt_dec (0 * 1) 0); [lra|].
    destruct (Rlt_dec (0 * 1 - 0) 0); [lra|].
    destruct (Rlt_dec (0 * 1 - 0 - 0) (1 / 2)); [|lra].
    rewrite (idx_to_char_get_Some _ _ "a") by (vm_compute; reflexivity).
    rewrite !bind_Ok. cbn beta iota. by rewrite decide_False.
Defined.

(** ** The builder, then the scorer and the generator *)

Lemma tensor_get2_elem t j k p :
  tensor_get2 t j k = Ok p → ∃ row, row ∈ t ∧ p ∈ row.
Proof.
  unfold tensor_get2.
  destruct (tensor_get t j) as [row|] eqn:Hrow; [|done]. rewrite bind_Ok.
  intros Hp. exists row. split; by eapply tensor_get_elem.
Qed.

Lemma bigram_loop_finite t d a prev rest v :
  Forall (Forall positive_probability) t → a <= 0 →
  bigram_loop t d (Fin a) prev rest = Ok v → ∃ r, v = Fin r ∧ r <= 0.
Proof.
  intros Ht. revert a prev. induction rest as [|c rest IH]; intros a prev Ha;
    cbn [bigram_loop].
  - intros [= <-]. by exists a.
  - destruct (char_to_index_get d (char prev)) as [j|]; [|done].
    destruct (char_to_index_get d (char c)) as [k|]; [|done].
    rewrite !bind_Ok. destruct (tensor_get2 t j k) as [p|] eqn:Hp; [|done].
    rewrite bind_Ok.
    destruct (tensor_get2_elem _ _ _ _ Hp) as (row & Hrow & Hin).
    eapply Forall_forall in Ht; [|exact Hrow].
    eapply Forall_forall in Ht; [|exact Hin].
    destruct Ht as (q & -> & Hq). rewrite tlog_pos by lra. cbn [tadd].
    apply IH. pose proof (ln_nonpos q Hq). lra.
Qed.

Lemma exact_log_likelihood_finite
    (counts : list (list tval)) (s : Z) (word : string) (d : gmap string Z)
    (start_token end_token : string) :
  (0 < s)%Z →
  Forall (Forall count_entry) counts →
  vocabulary_fits d (bigrams_count_to_probabilities counts s) →
  spelled d (processed_word word start_token end_token) →
  ∃ r, calculate_log_likelihood word (bigrams_count_to_probabilities counts s)
         d start_token end_token = Ok (Fin r)
       ∧ r <= 0.
Proof.
  intros Hs Hcounts Hfits Hsp.
  pose proof (smoothed_matrix_positive counts s Hs Hcounts) as Hpos.
  unfold calculate_log_likelihood, spelled in *.
  destruct (list_ascii_of_string _) as [|c rest]; [exists 0; split; [done|lra]|].
  destruct (bigram_loop_returns _ _ (Fin 0) c rest Hfits Hsp) as [v Hv].
  destruct (bigram_loop_finite _ _ 0 _ _ _ Hpos ltac:(lra) Hv)
    as (r & -> & Hr).
  by exists r.
Qed.

(** X22: built with a smoothing constant [s > 0] from counts on which the
    arithmetic of the dtype is exact, the matrix gives every word a finite
    log-likelihood: when the characters of the processed word are keys of
    the vocabulary and the indices of the vocabulary are in the matrix, the
    value returned is a real number [<= 0], never [-inf] or NaN. *)
Theorem smoothed_log_likelihood_finite
    (counts : tensor) (s : Z) (word : string) (d : gmap string Z)
    (start_token end_token : string) :
  exact_on counts s →
  (0 < s)%Z →
  vocabulary_fits d (bigrams_count_to_probabilities_dtype counts s) →
  spelled d (processed_word word start_token end_token) →
  ∃ r, calculate_log_likelihood word
         (bigrams_count_to_probabilities_dtype counts s)
         d start_token end_token = Ok (Fin r)
       ∧ r <= 0.
Proof.
  intros Hexact Hs.
  rewrite bigrams_count_to_probabilities_dtype_exact by done.
  apply exact_log_likelihood_finite; [done|]. by eapply exact_on_count_entries.
Qed.

Lemma zero_counts_exact :
  exact_on
    (FloatTensor float32
       [ [Fin 0; Fin 0; Fin 0; Fin 0]; [Fin 0; Fin 0; Fin 0; Fin 0];
         [Fin 0; Fin 0; Fin 0; Fin 0]; [Fin 0; Fin 0; Fin 0; Fin 0] ]) 1.
Proof. exact_on_tac. Qed.

Lemma smoothed_log_likelihood_finite_witness :
  ∃ r, calculate_log_likelihood "ab"
         (bigrams_count_to_probabilities_dtype
            (FloatTensor float32
               [ [Fin 0; Fin 0; Fin 0; Fin 0]; [Fin 0; Fin 0; Fin 0; Fin 0];
                 [Fin 0; Fin 0; Fin 0; Fin 0]; [Fin 0; Fin 0; Fin 0; Fin 0] ])
            1)
         short_vocabulary "^" "$" = Ok (Fin r)
       ∧ r <= 0.
Proof.
  apply (smoothed_log_likelihood_finite
           (FloatTensor float32
              [ [Fin 0; Fin 0; Fin 0; Fin 0]; [Fin 0; Fin 0; Fin 0; Fin 0];
                [Fin 0; Fin 0; Fin 0; Fin 0]; [Fin 0; Fin 0; Fin 0; Fin 0] ])
           1 "ab" short_vocabulary "^" "$").
  - apply zero_counts_exact.
  - lia.
  - rewrite (bigrams_count_to_probabilities_dtype_exact _ _ zero_counts_exact).
    cbn [values]. rewrite zero_counts_smoothed.
    apply short_vocabulary_fits; [reflexivity|]. by repeat constructor.
  - unfold spelled. simpl.
    repeat constructor; eexists; vm_compute; reflexivity.
Defined.

Lemma Rsum_positive qs :
  qs ≠ [] → Forall (λ q, 0 < q) qs → 0 < Rsum qs.
Proof.
  intros Hne Hqs. destruct Hqs as [|q qs Hq Hqs]; [done|]. simpl.
  assert (0 <= Rsum qs); [|lra].
  apply Rsum_nonneg. eapply Forall_impl; [exact Hqs|]. intros; simpl; lra.
Qed.

(** A row of the matrix built with smoothing [s > 0]: positive weights, as
    many as there are counts. *)
Lemma smoothed_row_weights row s :
  0 < s → Forall count_entry row →
  ∃ qs, normalised (map (λ c, tadd c (Fin s)) row) = map Fin qs
        ∧ Forall (λ q, 0 < q) qs ∧ length qs = length row.
Proof.
  intros Hs Hrow. destruct (count_entries_reals row Hrow) as (rs & -> & Hrs).
  destruct rs as [|r0 rs0] eqn:Hshape; [by exists []|]. rewrite <- Hshape in *.
  assert (1 <= INR (length rs)) as Hn.
  { subst rs. cbn [length]. rewrite S_INR. pose proof (pos_INR (length rs0)). lra. }
  pose proof (Rsum_nonneg rs Hrs) as Hsum.
  assert (0 < Rsum rs + INR (length rs) * s) as HT by nra.
  rewrite smoothed_row_closed_form by lra.
  eexists. split; [reflexivity|]. split; [|by rewrite !length_map].
  apply Forall_map, Forall_forall. intros c Hc.
  assert (0 <= c) as Hc0 by (by eapply Forall_forall in Hrs).
  unfold Rdiv. apply Rmult_lt_0_compat; [lra|]. by apply Rinv_0_lt_compat.
Qed.

Lemma generate_loop_returns_invariant {G : Type}
    (multinomial : list tval → G → result (Z * G))
    (end_token : string) (d : gmap string Z) (i2c : gmap Z string)
    (t : list (list tval)) (good : string → G → Prop) n cur name g :
  (∀ c g0, good c g0 → ∃ idx c' g',
     d !! c = Some idx
     ∧ sample_next_character multinomial idx t i2c g0 = Ok (c', g')
     ∧ good c' g') →
  good cur g →
  ∃ name' g', generate_loop multinomial end_token d i2c t n cur name g
              = Ok (name', g').
Proof.
  intros Hstep. revert cur name g.
  induction n as [|n IH]; intros cur name g Hc; cbn [generate_loop];
    [by eauto|].
  destruct (Hstep cur g Hc) as (idx & c' & g' & Hidx & Hs & Hc').
  rewrite (char_to_index_get_Some _ _ _ Hidx), bind_Ok, Hs, bind_Ok.
  cbn beta iota. case_decide; [by eauto|]. by apply IH.
Qed.

Lemma exact_generate_name_returns
    (counts : list (list tval)) (s : Z) (start_token end_token : string)
    (d : gmap string Z) (i2c : gmap Z string) (L : Z) (g : generator)
    (i0 : Z) :
  (0 < s)%Z →
  Forall (Forall count_entry) counts →
  Forall (λ row, length row = length counts) counts →
  d !! start_token = Some i0 → in_range counts i0 →
  (∀ j, (0 <= j < Z.of_nat (length counts))%Z →
        ∃ sym idx, i2c !! j = Some sym ∧ d !! sym = Some idx
                   ∧ in_range counts idx) →
  variates_in_range g →
  ∃ name g',
    generate_name torch_multinomial start_token end_token d i2c
      (bigrams_count_to_probabilities counts s) L g
    = Ok (name, g').
Proof.
  intros Hs Hcounts Hsquare Hstart Hi0 Hsyms Hg. unfold generate_name.
  apply (generate_loop_returns_invariant _ _ _ _ _
           (λ c g0, (∃ idx, d !! c = Some idx ∧ in_range counts idx)
                    ∧ variates_in_range g0)); [|by eauto].
  intros c g0 [(idx & Hidx & Hrange) Hg0]. exists idx.
  assert (in_range (bigrams_count_to_probabilities counts s) idx) as Hrange'.
  { unfold in_range in *. by rewrite bigrams_count_to_probabilities_length. }
  destruct (tensor_get_in_range _ _ Hrange') as [row Hrow].
  pose proof (tensor_get_elem _ _ _ Hrow) as Hin.
  rewrite bigrams_count_to_probabilities_rows in Hin.
  unfold smoothed_bigram_counts in Hin. rewrite map_map in Hin.
  apply list_elem_of_In, in_map_iff in Hin as (crow & <- & Hcrow).
  apply list_elem_of_In in Hcrow.
  assert (Forall count_entry crow) as Hentries
    by (by eapply Forall_forall in Hcounts).
  assert (length crow = length counts) as Hlen
    by (by eapply Forall_forall in Hsquare).
  destruct (smoothed_row_weights crow (IZR s) ltac:(by apply IZR_lt in Hs)
              Hentries) as (qs & Hqs & Hpos & Hqlen).
  assert (qs ≠ []) as Hne.
  { intros ->. unfold in_range in Hrange. simpl in Hqlen. lia. }
  pose proof (Rsum_positive qs Hne Hpos) as Htotal.
  assert (Forall (λ q, 0 <= q) qs) as Hnn
    by (eapply Forall_impl; [exact Hpos|]; intros; simpl; lra).
  pose proof (scaled_variate_in_range _ _ (Hg0 (drawn g0)) Htotal) as Hscaled.
  pose proof (pick_in_range qs _ Hnn Hscaled) as Hpick.
  destruct (Hsyms (pick qs (uniform g0 (drawn g0) * Rsum qs)))
    as (sym & idx' & Hsym & Hidx' & Hrange''); [lia|].
  exists sym, (advance g0). split; [done|]. split.
  - unfold sample_next_character. rewrite Hrow, bind_Ok, Hqs.
    rewrite torch_multinomial_weights by done. rewrite bind_Ok. cbn beta iota.
    by rewrite (idx_to_char_get_Some _ _ _ Hsym).
  - split; [by eauto|]. by apply variates_in_range_advance.
Qed.

(** X23: built with a smoothing constant [s > 0] from a square tensor of
    counts on which the arithmetic of the dtype is exact, the matrix can
    always be sampled: when the start token and the symbol of every index
    are keys of [char_to_idx] with an index in range, and the variates lie
    in [[0, 1)], [generate_name] returns a name for every maximum length. *)
Theorem smoothed_generate_name_returns
    (counts : tensor) (s : Z) (start_token end_token : string)
    (d : gmap string Z) (i2c : gmap Z string) (L : Z) (g : generator)
    (i0 : Z) :
  exact_on counts s →
  (0 < s)%Z →
  Forall (λ row, length row = length (values counts)) (values counts) →
  d !! start_token = Some i0 → in_range (values counts) i0 →
  (∀ j, (0 <= j < Z.of_nat (length (values counts)))%Z →
        ∃ sym idx, i2c !! j = Some sym ∧ d !! sym = Some idx
                   ∧ in_range (values counts) idx) →
  variates_in_range g →
  ∃ name g',
    generate_name torch_multinomial start_token end_token d i2c
      (bigrams_count_to_probabilities_dtype counts s) L g
    = Ok (name, g').
Proof.
  intros Hexact Hs Hsquare Hstart Hi0 Hsyms Hg.
  rewrite bigrams_count_to_probabilities_dtype_exact by done.
  eapply exact_generate_name_returns; [done| |done..].
  by eapply exact_on_count_entries.
Qed.

Lemma smoothed_generate_name_returns_witness :
  ∃ name g',
    generate_name torch_multinomial "^" "$" short_vocabulary short_symbols
      (bigrams_count_to_probabilities_dtype
         (IntTensor int64 [[0; 0; 0; 0]; [5; 0; 2; 1]; [0; 3; 0; 0];
                           [0; 1; 1; 0]]%Z) 1)
      3 zero_generator
    = Ok (name, g').
Proof.
  apply (smoothed_generate_name_returns
           (IntTensor int64 [[0; 0; 0; 0]; [5; 0; 2; 1]; [0; 3; 0; 0];
                             [0; 1; 1; 0]]%Z) 1
           "^" "$" short_vocabulary short_symbols 3 zero_generator 0).
  - exact_on_tac.
  - lia.
  - by repeat constructor.
  - vm_compute. reflexivity.
  - unfold in_range. simpl. lia.
  - intros j Hj. simpl in Hj.
    assert (j = 0 ∨ j = 1 ∨ j = 2 ∨ j = 3)%Z as [-> | [-> | [-> | ->]]] by lia.
    + exists "^", 0%Z. split; [vm_compute; reflexivity|].
      split; [vm_compute; reflexivity|]. unfold in_range. simpl. lia.
    + exists "$", 1%Z. split; [vm_compute; reflexivity|].
      split; [vm_compute; reflexivity|]. unfold in_range. simpl. lia.
    + exists "a", 2%Z. split; [vm_compute; reflexivity|].
      split; [vm_compute; reflexivity|]. unfold in_range. simpl. lia.
    + exists "b", 3%Z. split; [vm_compute; reflexivity|].
      split; [vm_compute; reflexivity|]. unfold in_range. simpl. lia.
  - intros n. simpl. lra.
Defined.
